(** * fractalGlass: the flowing-glass hero banner (src/components/Home.tsx)

    The component has two halves, and so has this development.

    - The fragment shader (a GLSL program held in a string) is embedded
      twice.  [Module Shader], over the GLSL built-ins of [Module GLSL],
      takes a GLSL [float] to be an exact rational ([Q]): every operator is
      the one the GLSL specification gives, without rounding, overflow,
      infinities or NaN, and equality of floats is [Qeq] ([==]).  A quotient
      whose divisor is zero has no meaning there; the theorems whose truth
      depends on the value of such a quotient assume the divisor non-zero.
      [Module Shader32], over [Module F32], computes the cover fit, the
      ripple and the edge fade in IEEE 754 single precision, every operation
      rounded as the GPU rounds it; the statements that do not survive
      rounding are settled there.

    - The React effect (mount, the two event handlers, the animation frame,
      the texture-load callback and the cleanup) is embedded in
      [Module Component] as a state machine over an explicit store of
      [Vector2] objects, the window's listener list, the pending
      animation-frame requests and an ordered log of the host calls made. *)

From Stdlib Require Import QArith Qround Lqa SpecFloat.
From stdpp Require Import gmap list.

(** ** GLSL built-ins on exact rationals *)

Module GLSL.
Local Open Scope Q_scope.

(** [a < b] as the condition of an [if]. *)
Definition Qltb (a b : Q) : bool := negb (Qle_bool b a).

(** [abs(x)]: [x] if [x >= 0], otherwise [-x]. *)
Definition abs (x : Q) : Q := if Qle_bool 0 x then x else - x.

(** [sign(x)]: [1.0] if [x > 0], [0.0] if [x = 0], [-1.0] if [x < 0]. *)
Definition sign (x : Q) : Q :=
  if Qltb 0 x then 1 else if Qltb x 0 then - (1) else 0.

(** [floor(x)]: the nearest integer less than or equal to [x]. *)
Definition floor (x : Q) : Q := inject_Z (Qfloor x).

(** [mod(x, y)]: [x - y * floor(x / y)]. *)
Definition mod_ (x y : Q) : Q := x - y * floor (x / y).

(** [min(x, y)]: [y] if [y < x], otherwise [x]. *)
Definition min (x y : Q) : Q := if Qltb y x then y else x.

(** [max(x, y)]: [y] if [x < y], otherwise [x]. *)
Definition max (x y : Q) : Q := if Qltb x y then y else x.

(** [clamp(x, lo, hi)]: [min(max(x, lo), hi)]. *)
Definition clamp (x lo hi : Q) : Q := min (max x lo) hi.

(** [mix(x, y, a)]: [x * (1 - a) + y * a]. *)
Definition mix (x y a : Q) : Q := x * (1 - a) + y * a.

(** [smoothstep(edge0, edge1, x)]:
    [t = clamp((x - edge0) / (edge1 - edge0), 0.0, 1.0);
     return t * t * (3.0 - 2.0 * t);]
    The GLSL specification leaves the result undefined when
    [edge0 >= edge1]; [smoothEdge] calls it that way on the right edge, and
    the model gives the call the value of the formula, as implementations
    do. *)
Definition smoothstep (edge0 edge1 x : Q) : Q :=
  let t := clamp ((x - edge0) / (edge1 - edge0)) 0 1 in
  t * t * (3 - 2 * t).

(** [vec2], with the component-wise operators the shader uses. *)
Record vec2 : Type := Vec2 { vx : Q; vy : Q }.

Definition vadd (a b : vec2) : vec2 := Vec2 (vx a + vx b) (vy a + vy b).
Definition vsub (a b : vec2) : vec2 := Vec2 (vx a - vx b) (vy a - vy b).
Definition vmul (a b : vec2) : vec2 := Vec2 (vx a * vx b) (vy a * vy b).
Definition vdiv (a b : vec2) : vec2 := Vec2 (vx a / vx b) (vy a / vy b).
Definition vscale (a : vec2) (k : Q) : vec2 := Vec2 (vx a * k) (vy a * k).
Definition vclamp (a : vec2) (lo hi : Q) : vec2 :=
  Vec2 (clamp (vx a) lo hi) (clamp (vy a) lo hi).

(** Equality of two [vec2] values, component by component. *)
Definition veq (a b : vec2) : Prop := vx a == vx b /\ vy a == vy b.

End GLSL.

(** ** The fragment shader *)

Module Shader.
Import GLSL.
Local Open Scope Q_scope.

(** The uniforms the fragment shader declares ([uTexture], the sampler, is
    opaque to everything modelled here). *)
Record Uniforms : Type := mkUniforms {
  uResolution : vec2;
  uTextureSize : vec2;
  uMouse : vec2;
  uTime : Q;
  uParallaxStrength : Q;
  uDistortionMultiplier : Q;
  uGlassStrength : Q;
  uStripesFrequency : Q;
  uGlassSmoothness : Q;
  uEdgePadding : Q;
  uFlowSpeed : Q
}.

Section Fragment.
Variable u : Uniforms.

(** The locals of [getCoverUV], in the order the shader computes them. *)
Definition coverScale (textureSize : vec2) : Q :=
  let s := vdiv (uResolution u) textureSize in
  max (vx s) (vy s).

Definition coverScaledSize (textureSize : vec2) : vec2 :=
  vscale textureSize (coverScale textureSize).

Definition coverOffset (textureSize : vec2) : vec2 :=
  vscale (vsub (uResolution u) (coverScaledSize textureSize)) (1 # 2).

Definition getCoverUV (uv textureSize : vec2) : vec2 :=
  if Qltb (vx textureSize) 1 || Qltb (vy textureSize) 1 then uv
  else
    let scaledSize := coverScaledSize textureSize in
    let offset := coverOffset textureSize in
    vdiv (vsub (vmul uv (uResolution u)) offset) scaledSize.

Definition displacement (x num_stripes strength : Q) : Q :=
  let modulus := 1 / num_stripes in
  mod_ x modulus * strength.

(** The body of the [for] loop of [fractalGlass] at loop index [i]. *)
Definition glassTerm (x time : Q) (i : Z) : Q :=
  let offset := inject_Z i * uGlassSmoothness u + time * uFlowSpeed u in
  displacement (x + offset) (uStripesFrequency u) (uGlassStrength u).

(** [for (int i = lo; i <= 5; i++) d += ...], with [n] iterations left. *)
Fixpoint glassLoop (x time : Q) (n : nat) (i : Z) (d : Q) : Q :=
  match n with
  | O => d
  | S n' => glassLoop x time n' (i + 1)%Z (d + glassTerm x time i)
  end.

Definition fractalGlass (x time : Q) : Q :=
  let d := glassLoop x time 11 (-5)%Z 0 in
  let d := d / 11 in
  x + d.

Definition smoothEdge (x padding : Q) : Q :=
  let edge := padding in
  if Qltb x edge then smoothstep 0 edge x
  else if Qltb (1 - edge) x then smoothstep 1 (1 - edge) x
  else 1.

(** [main], split at the values the claims speak about. *)
Definition edgeFactor (vUv : vec2) : Q := smoothEdge (vx vUv) (uEdgePadding u).

(** [uv] after [uv.x = mix(originalX, distorted, edgeFactor)]. *)
Definition distortedUV (vUv : vec2) : vec2 :=
  let originalX := vx vUv in
  let distorted := fractalGlass originalX (uTime u) in
  Vec2 (mix originalX distorted (edgeFactor vUv)) (vy vUv).

Definition normalizedMouse : vec2 := vdiv (uMouse u) (uResolution u).

Definition parallaxOffset (vUv : vec2) : vec2 :=
  let originalX := vx vUv in
  let distortionFactor := vx (distortedUV vUv) - originalX in
  let parallaxDirection := - sign ((1 # 2) - vx normalizedMouse) in
  let offset :=
    Vec2 (parallaxDirection * abs (vx normalizedMouse - (1 # 2))
            * uParallaxStrength u
            * (1 + abs distortionFactor * uDistortionMultiplier u))
         0 in
  vscale offset (edgeFactor vUv).

(** [uv] after [uv += parallaxOffset]. *)
Definition parallaxUV (vUv : vec2) : vec2 :=
  vadd (distortedUV vUv) (parallaxOffset vUv).

(** The coordinate [main] hands to [texture2D]. *)
Definition sampleUV (vUv : vec2) : vec2 :=
  let coverUV := getCoverUV (parallaxUV vUv) (uTextureSize u) in
  vclamp coverUV 0 1.

End Fragment.

(** The uniform values the component installs at mount, for a window of the
    given inner size. *)
Definition defaults (w h : Q) : Uniforms :=
  {| uResolution := Vec2 w h;
     uTextureSize := Vec2 1 1;
     uMouse := Vec2 (w / 2) (h / 2);
     uTime := 0;
     uParallaxStrength := 1 # 10;
     uDistortionMultiplier := 10;
     uGlassStrength := 2;
     uStripesFrequency := 35;
     uGlassSmoothness := 1 # 100000;
     uEdgePadding := 1 # 10;
     uFlowSpeed := 1 # 100 |}.

End Shader.

(** ** The React effect: mount, handlers, animation frame, cleanup *)

Module Component.
Import GLSL.
Local Open Scope Q_scope.

(** Identities of the objects the effect hands to the host.  Everything that
    is not the component's own is [Foreign]. *)
Inductive EventType : Type := Mousemove | Resize.
Inductive Handler : Type := OnMouseMove | OnResize | ForeignHandler (n : nat).
Inductive Callback : Type := Animate | ForeignCallback (n : nat).
Inductive Element : Type := Canvas | ForeignElement (n : nat).
Inductive Resource : Type := Renderer | Geometry | Texture | Material.

#[export] Instance EventType_eq_dec : EqDecision EventType.
Proof. solve_decision. Defined.
#[export] Instance Handler_eq_dec : EqDecision Handler.
Proof. solve_decision. Defined.
#[export] Instance Callback_eq_dec : EqDecision Callback.
Proof. solve_decision. Defined.
#[export] Instance Element_eq_dec : EqDecision Element.
Proof. solve_decision. Defined.
#[export] Instance Resource_eq_dec : EqDecision Resource.
Proof. solve_decision. Defined.

(** The host calls the effect makes, as they are logged. *)
Inductive Call : Type :=
| AddEventListener (ty : EventType) (h : Handler)
| RemoveEventListener (ty : EventType) (h : Handler)
| RequestAnimationFrame (cb : Callback) (id : nat)
| CancelAnimationFrame (id : nat)
| AppendChild (e : Element)
| RemoveChild (e : Element)
| Dispose (r : Resource)
| Render.

(** The browser side: the window, the container [div] and the call log. *)
Record Host : Type := mkHost {
  innerWidth : Q;
  innerHeight : Q;
  devicePixelRatio : Q;
  listeners : list (EventType * Handler);
  rafQueue : gmap nat Callback;
  rafNext : nat;
  containerRef : bool;
  children : list Element;
  log : list Call
}.

(** The [uniforms] object: the three [Vector2] values are references into
    the store, the scalars are held in place. *)
Record JSUniforms : Type := mkJSUniforms {
  uResolution : nat;
  uTextureSize : nat;
  uMouse : nat;
  uTime : Q;
  uParallaxStrength : Q;
  uDistortionMultiplier : Q;
  uGlassStrength : Q;
  uStripesFrequency : Q;
  uGlassSmoothness : Q;
  uEdgePadding : Q;
  uFlowSpeed : Q
}.

(** What the effect's closure holds. *)
Record Closure : Type := mkClosure {
  store : gmap nat vec2;
  uniforms : JSUniforms;
  cameraAspect : Q;
  projectionAspect : Q;
  rendererSize : vec2;
  pixelRatio : Q;
  canvasRef : option Element;
  animationId : option nat;
  live : list Resource
}.

Record State : Type := mkState { host : Host; clo : Closure }.

(** *** Field updates *)

Definition set_inner (w h : Q) (hs : Host) : Host :=
  mkHost w h (devicePixelRatio hs) (listeners hs) (rafQueue hs) (rafNext hs)
         (containerRef hs) (children hs) (log hs).

Definition set_listeners (ls : list (EventType * Handler)) (hs : Host) : Host :=
  mkHost (innerWidth hs) (innerHeight hs) (devicePixelRatio hs) ls
         (rafQueue hs) (rafNext hs) (containerRef hs) (children hs) (log hs).

Definition set_raf (q : gmap nat Callback) (n : nat) (hs : Host) : Host :=
  mkHost (innerWidth hs) (innerHeight hs) (devicePixelRatio hs) (listeners hs)
         q n (containerRef hs) (children hs) (log hs).

Definition set_children (es : list Element) (hs : Host) : Host :=
  mkHost (innerWidth hs) (innerHeight hs) (devicePixelRatio hs) (listeners hs)
         (rafQueue hs) (rafNext hs) (containerRef hs) es (log hs).

Definition logCall (c : Call) (hs : Host) : Host :=
  mkHost (innerWidth hs) (innerHeight hs) (devicePixelRatio hs) (listeners hs)
         (rafQueue hs) (rafNext hs) (containerRef hs) (children hs)
         (log hs ++ [c]).

Definition set_uTime (t : Q) (us : JSUniforms) : JSUniforms :=
  mkJSUniforms (uResolution us) (uTextureSize us) (uMouse us) t
               (uParallaxStrength us) (uDistortionMultiplier us)
               (uGlassStrength us) (uStripesFrequency us)
               (uGlassSmoothness us) (uEdgePadding us) (uFlowSpeed us).

Definition set_store (m : gmap nat vec2) (c : Closure) : Closure :=
  mkClosure m (uniforms c) (cameraAspect c) (projectionAspect c)
            (rendererSize c) (pixelRatio c) (canvasRef c) (animationId c)
            (live c).

Definition set_uniforms (us : JSUniforms) (c : Closure) : Closure :=
  mkClosure (store c) us (cameraAspect c) (projectionAspect c)
            (rendererSize c) (pixelRatio c) (canvasRef c) (animationId c)
            (live c).

Definition set_cameraAspect (a : Q) (c : Closure) : Closure :=
  mkClosure (store c) (uniforms c) a (projectionAspect c)
            (rendererSize c) (pixelRatio c) (canvasRef c) (animationId c)
            (live c).

Definition set_projectionAspect (a : Q) (c : Closure) : Closure :=
  mkClosure (store c) (uniforms c) (cameraAspect c) a
            (rendererSize c) (pixelRatio c) (canvasRef c) (animationId c)
            (live c).

Definition set_rendererSize (v : vec2) (c : Closure) : Closure :=
  mkClosure (store c) (uniforms c) (cameraAspect c)
            (projectionAspect c) v (pixelRatio c) (canvasRef c)
            (animationId c) (live c).

Definition set_animationId (id : option nat) (c : Closure) : Closure :=
  mkClosure (store c) (uniforms c) (cameraAspect c)
            (projectionAspect c) (rendererSize c) (pixelRatio c) (canvasRef c)
            id (live c).

Definition set_live (rs : list Resource) (c : Closure) : Closure :=
  mkClosure (store c) (uniforms c) (cameraAspect c)
            (projectionAspect c) (rendererSize c) (pixelRatio c) (canvasRef c)
            (animationId c) rs.

(** *** Host interfaces *)

(** [window.addEventListener]: a (type, listener) pair already in the list
    is not added again. *)
Definition addEventListener (ty : EventType) (h : Handler) (hs : Host) : Host :=
  let ls := listeners hs in
  logCall (AddEventListener ty h)
    (set_listeners (if decide ((ty, h) ∈ ls) then ls else ls ++ [(ty, h)]) hs).

Definition removeEventListener (ty : EventType) (h : Handler) (hs : Host) : Host :=
  logCall (RemoveEventListener ty h)
    (set_listeners (filter (λ p, p ≠ (ty, h)) (listeners hs)) hs).

(** [requestAnimationFrame]: queues the callback under a new handle and
    returns the handle. *)
Definition requestAnimationFrame (cb : Callback) (hs : Host) : nat * Host :=
  let id := rafNext hs in
  (id, logCall (RequestAnimationFrame cb id)
         (set_raf (<[id := cb]> (rafQueue hs)) (S id) hs)).

Definition cancelAnimationFrame (id : nat) (hs : Host) : Host :=
  logCall (CancelAnimationFrame id)
    (set_raf (delete id (rafQueue hs)) (rafNext hs) hs).

(** [container.appendChild]: a node already among the children is moved to
    the end. *)
Definition appendChild (e : Element) (hs : Host) : Host :=
  logCall (AppendChild e)
    (set_children (filter (λ c, c ≠ e) (children hs) ++ [e]) hs).

(** [container.removeChild]: throws when the node is not a child. *)
Definition removeChild (e : Element) (hs : Host) : option Host :=
  if decide (e ∈ children hs)
  then Some (logCall (RemoveChild e)
               (set_children (filter (λ c, c ≠ e) (children hs)) hs))
  else None.

(** [Math.min] on two numbers. *)
Definition Math_min (a b : Q) : Q := if Qle_bool a b then a else b.

(** *** The store of [Vector2] objects *)

(** [new T.Vector2(x, y)]: the object goes to the next free cell. *)
Definition newVector2 (x y : Q) (st : gmap nat vec2 * nat)
  : nat * (gmap nat vec2 * nat) :=
  let l := snd st in
  (l, (<[l := Vec2 x y]> (fst st), S l)).

(** [v.x = a], [v.y = b] and [v.set(a, b)] on the object at [l]. *)
Definition setX (l : nat) (a : Q) (c : Closure) : Closure :=
  set_store (alter (λ v, Vec2 a (vy v)) l (store c)) c.

Definition setY (l : nat) (b : Q) (c : Closure) : Closure :=
  set_store (alter (λ v, Vec2 (vx v) b) l (store c)) c.

Definition vectorSet (l : nat) (a b : Q) (c : Closure) : Closure :=
  setY l b (setX l a c).

(** *** The effect *)

Definition onMouseMove (clientX clientY : Q) (c : Closure) : Closure :=
  let c := setX (uMouse (uniforms c)) clientX c in
  setY (uMouse (uniforms c)) clientY c.

Definition onResize (s : State) : State :=
  let w := innerWidth (host s) in
  let h := innerHeight (host s) in
  let c := set_cameraAspect (w / h) (clo s) in
  let c := set_projectionAspect (cameraAspect c) c in
  let c := set_rendererSize (Vec2 w h) c in
  let c := vectorSet (uResolution (uniforms c)) w h c in
  mkState (host s) c.

(** The [onLoad] callback given to [textureLoader.load]. *)
Definition onTextureLoad (width height : Q) (c : Closure) : Closure :=
  vectorSet (uTextureSize (uniforms c)) width height c.

Definition animate (s : State) : State :=
  let (id, hs) := requestAnimationFrame Animate (host s) in
  let c := set_animationId (Some id) (clo s) in
  let c :=
    set_uniforms (set_uTime (uTime (uniforms c) + (1 # 100)) (uniforms c)) c in
  mkState (logCall Render hs) c.

Definition dispose (r : Resource) (s : State) : State :=
  mkState (logCall (Dispose r) (host s))
          (set_live (filter (λ r', r' ≠ r) (live (clo s))) (clo s)).

(** The body of the effect up to its [return]; [None] when
    [containerRef.current] is null and the effect returns at once.  In source
    order: the camera (whose constructor computes the projection), the
    renderer with its size and pixel ratio, [canvasRef.current], the canvas
    appended to the container, the geometry, the texture, the three vectors
    of the [uniforms] literal, the material, the two listeners and the first
    call of [animate]. *)
Definition mount (hs : Host) : option State :=
  if containerRef hs then
    let w := innerWidth hs in
    let h := innerHeight hs in
    let hs := appendChild Canvas hs in
    let (lres, st) := newVector2 w h (∅, 0%nat) in
    let (ltex, st) := newVector2 1 1 st in
    let (lmouse, st) := newVector2 (w / 2) (h / 2) st in
    let us :=
      mkJSUniforms lres ltex lmouse 0 (1 # 10) 10 2 35 (1 # 100000)
                   (1 # 10) (1 # 100) in
    let c :=
      mkClosure (fst st) us (w / h) (w / h) (Vec2 w h)
                (Math_min (devicePixelRatio hs) 2) (Some Canvas) None
                [Renderer; Geometry; Texture; Material] in
    let hs := addEventListener Mousemove OnMouseMove hs in
    let hs := addEventListener Resize OnResize hs in
    Some (animate (mkState hs c))
  else None.

(** The function the effect returns.  [animationId] is assigned by the first
    [animate], before any cleanup can run; [container] is the non-null
    constant captured after the guard of [mount], so the test before
    [removeChild] is on [canvasRef.current] alone. *)
Definition cleanup (s : State) : option State :=
  let hs := removeEventListener Mousemove OnMouseMove (host s) in
  let hs := removeEventListener Resize OnResize hs in
  let hs :=
    match animationId (clo s) with
    | Some id => cancelAnimationFrame id hs
    | None => hs
    end in
  hs ← match canvasRef (clo s) with
       | Some e => removeChild e hs
       | None => Some hs
       end;
  let s := mkState hs (clo s) in
  let s := dispose Geometry s in
  let s := dispose Material s in
  let s := dispose Texture s in
  let s := dispose Renderer s in
  Some s.

(** *** What the host does to a mounted component *)

Inductive Event : Type :=
| EvMouseMove (clientX clientY : Q)
| EvResize (w h : Q)
| EvFrame (id : nat)
| EvTextureLoad (width height : Q).

(** One event: the window dispatches to the listeners attached at the time,
    a frame runs the callback queued under its handle, the loader calls
    [onLoad] when the image arrives. *)
Definition fire (e : Event) (s : State) : State :=
  match e with
  | EvMouseMove cx cy =>
      if decide ((Mousemove, OnMouseMove) ∈ listeners (host s))
      then mkState (host s) (onMouseMove cx cy (clo s))
      else s
  | EvResize w h =>
      let s := mkState (set_inner w h (host s)) (clo s) in
      if decide ((Resize, OnResize) ∈ listeners (host s))
      then onResize s
      else s
  | EvFrame id =>
      match rafQueue (host s) !! id with
      | Some Animate =>
          let hs := set_raf (delete id (rafQueue (host s))) (rafNext (host s))
                            (host s) in
          animate (mkState hs (clo s))
      | _ => s
      end
  | EvTextureLoad tw th => mkState (host s) (onTextureLoad tw th (clo s))
  end.

Definition run (evs : list Event) (s : State) : State :=
  fold_left (λ s e, fire e s) evs s.

(** The uniform values a draw call uploads to the shader. *)
Definition shaderUniforms (c : Closure) : option Shader.Uniforms :=
  let us := uniforms c in
  res ← store c !! uResolution us;
  ts ← store c !! uTextureSize us;
  m ← store c !! uMouse us;
  Some (Shader.mkUniforms res ts m (uTime us) (uParallaxStrength us)
          (uDistortionMultiplier us) (uGlassStrength us)
          (uStripesFrequency us) (uGlassSmoothness us) (uEdgePadding us)
          (uFlowSpeed us)).

(** The handlers this component creates. *)
Definition own (h : Handler) : Prop := h = OnMouseMove ∨ h = OnResize.

(** A host in which nothing of this component exists yet: no listener is one
    of its handlers, no queued frame callback is [Animate], and every handle
    in use is below the next one. *)
Definition fresh_host (hs : Host) : Prop :=
  (∀ ty h, (ty, h) ∈ listeners hs → ¬ own h)
  ∧ (∀ id cb, rafQueue hs !! id = Some cb → cb ≠ Animate ∧ (id < rafNext hs)%nat).

(** The uniforms side of a mounted component: three distinct vectors, the
    resolution vector equal to the window's inner size, both handlers
    attached. *)
Record wired (s : State) : Prop := mkWired {
  wired_res_tex :
    uResolution (uniforms (clo s)) ≠ uTextureSize (uniforms (clo s));
  wired_res_mouse :
    uResolution (uniforms (clo s)) ≠ uMouse (uniforms (clo s));
  wired_tex_mouse :
    uTextureSize (uniforms (clo s)) ≠ uMouse (uniforms (clo s));
  wired_resolution :
    store (clo s) !! uResolution (uniforms (clo s))
    = Some (Vec2 (innerWidth (host s)) (innerHeight (host s)));
  wired_texture : is_Some (store (clo s) !! uTextureSize (uniforms (clo s)));
  wired_mouse : is_Some (store (clo s) !! uMouse (uniforms (clo s)));
  wired_mousemove : (Mousemove, OnMouseMove) ∈ listeners (host s);
  wired_resize : (Resize, OnResize) ∈ listeners (host s)
}.

(** The resources side of a mounted component: [animationId] is the handle of
    the one queued [Animate] callback, the canvas is in the container, the
    four resources are live, and the component's listeners are the two it
    attached. *)
Record scheduled (s : State) : Prop := mkScheduled {
  sched_id :
    ∃ id, animationId (clo s) = Some id
          ∧ rafQueue (host s) !! id = Some Animate
          ∧ ∀ id', rafQueue (host s) !! id' = Some Animate → id' = id;
  sched_below :
    ∀ id cb, rafQueue (host s) !! id = Some cb → (id < rafNext (host s))%nat;
  sched_canvasRef : canvasRef (clo s) = Some Canvas;
  sched_canvas : Canvas ∈ children (host s);
  sched_live : live (clo s) = [Renderer; Geometry; Texture; Material];
  sched_own :
    ∀ ty h, (ty, h) ∈ listeners (host s) → own h →
            (ty, h) = (Mousemove, OnMouseMove) ∨ (ty, h) = (Resize, OnResize)
}.

(** A page of the given size with an empty container. *)
Definition page (w h : Q) : Host :=
  mkHost w h 1 [] ∅ 0 true [] [].

End Component.

(** ** Reading a run of events *)

Module Trace.
Import GLSL Component.

(** The size the [onLoad] callbacks of a run leave behind, starting from
    [ts]: that of the last load, if there is one. *)
Definition loadedSize (evs : list Event) (ts : vec2) : vec2 :=
  fold_left (λ ts e, match e with
                     | EvTextureLoad width height => Vec2 width height
                     | _ => ts
                     end) evs ts.


(** A mounted component as a guest of the host [hs] it was mounted on: what
    it has added to the host's listeners, container and frame queue. *)
Record guest (hs : Host) (s : State) : Prop := mkGuest {
  guest_listeners :
    listeners (host s)
    = listeners hs ++ [(Mousemove, OnMouseMove); (Resize, OnResize)];
  guest_children :
    children (host s) = filter (λ c, c ≠ Canvas) (children hs) ++ [Canvas];
  guest_canvasRef : canvasRef (clo s) = Some Canvas;
  guest_queue :
    ∃ id, animationId (clo s) = Some id
          ∧ rafQueue (host s) = <[id := Animate]> (rafQueue hs)
          ∧ rafQueue hs !! id = None;
  guest_next : (rafNext hs ≤ rafNext (host s))%nat
}.

End Trace.

(** ** Single precision *)

(** IEEE 754 binary32 (24 bits of precision, exponents up to 128), every
    operation rounded to nearest even: the arithmetic a GLSL [highp float]
    is computed in. *)
Module F32.

Definition prec : Z := 24.
Definition emax : Z := 128.

Definition add : spec_float → spec_float → spec_float := SFadd prec emax.
Definition sub : spec_float → spec_float → spec_float := SFsub prec emax.
Definition mul : spec_float → spec_float → spec_float := SFmul prec emax.
Definition div : spec_float → spec_float → spec_float := SFdiv prec emax.
Definition ltb : spec_float → spec_float → bool := SFltb.

(** The float nearest to [m * 2^e], to an integer and to a quotient of two
    integers. *)
Definition dyadic (m e : Z) : spec_float := binary_normalize prec emax m e false.
Definition ofZ (n : Z) : spec_float := dyadic n 0.
Definition ratio (a b : Z) : spec_float := div (ofZ a) (ofZ b).

(** A number of the exact model as a float; correctly rounded when the
    numerator and the denominator are below [2^24], as those of the shipped
    uniforms and of pixel sizes are. *)
Definition ofQ (q : Q) : spec_float := ratio (Qnum q) (Zpos (Qden q)).

Definition zero : spec_float := ofZ 0.
Definition one : spec_float := ofZ 1.
Definition half : spec_float := ratio 1 2.

(** [floor(x)]. *)
Definition floor (x : spec_float) : spec_float :=
  match x with
  | S754_finite s m (Zneg p) => ofZ (Z.shiftr (cond_Zopp s (Zpos m)) (Zpos p))
  | _ => x
  end.

(** [mod(x, y)]: [x - y * floor(x / y)]. *)
Definition mod_ (x y : spec_float) : spec_float :=
  sub x (mul y (floor (div x y))).

(** [min(x, y)]: [y] if [y < x], otherwise [x]; [max(x, y)]: [y] if
    [x < y], otherwise [x]; [clamp(x, lo, hi)]: [min(max(x, lo), hi)]. *)
Definition min (x y : spec_float) : spec_float := if ltb y x then y else x.
Definition max (x y : spec_float) : spec_float := if ltb x y then y else x.
Definition clamp (x lo hi : spec_float) : spec_float := min (max x lo) hi.

(** [smoothstep(edge0, edge1, x)], by the formula of the specification. *)
Definition smoothstep (edge0 edge1 x : spec_float) : spec_float :=
  let t := clamp (div (sub x edge0) (sub edge1 edge0)) zero one in
  mul (mul t t) (sub (ofZ 3) (mul (ofZ 2) t)).

Record vec2 : Type := Vec2 { fx : spec_float; fy : spec_float }.

Definition vsub (a b : vec2) : vec2 := Vec2 (sub (fx a) (fx b)) (sub (fy a) (fy b)).
Definition vmul (a b : vec2) : vec2 := Vec2 (mul (fx a) (fx b)) (mul (fy a) (fy b)).
Definition vdiv (a b : vec2) : vec2 := Vec2 (div (fx a) (fx b)) (div (fy a) (fy b)).
Definition vscale (a : vec2) (k : spec_float) : vec2 :=
  Vec2 (mul (fx a) k) (mul (fy a) k).

End F32.

(** ** The fragment shader in single precision *)

(** [getCoverUV], [displacement], [fractalGlass] and [smoothEdge] once more,
    with every operation of the source rounded as the shader rounds it. *)
Module Shader32.
Import F32.

Record Uniforms : Type := mkUniforms {
  uResolution : vec2;
  uTextureSize : vec2;
  uMouse : vec2;
  uTime : spec_float;
  uParallaxStrength : spec_float;
  uDistortionMultiplier : spec_float;
  uGlassStrength : spec_float;
  uStripesFrequency : spec_float;
  uGlassSmoothness : spec_float;
  uEdgePadding : spec_float;
  uFlowSpeed : spec_float
}.

Section Fragment.
Variable u : Uniforms.

Definition coverScale (textureSize : vec2) : spec_float :=
  let s := vdiv (uResolution u) textureSize in
  max (fx s) (fy s).

Definition coverScaledSize (textureSize : vec2) : vec2 :=
  vscale textureSize (coverScale textureSize).

Definition coverOffset (textureSize : vec2) : vec2 :=
  vscale (vsub (uResolution u) (coverScaledSize textureSize)) half.

Definition getCoverUV (uv textureSize : vec2) : vec2 :=
  if ltb (fx textureSize) one || ltb (fy textureSize) one then uv
  else
    let scaledSize := coverScaledSize textureSize in
    let offset := coverOffset textureSize in
    vdiv (vsub (vmul uv (uResolution u)) offset) scaledSize.

Definition displacement (x num_stripes strength : spec_float) : spec_float :=
  let modulus := div one num_stripes in
  mul (mod_ x modulus) strength.

Definition glassTerm (x time : spec_float) (i : Z) : spec_float :=
  let offset := add (mul (ofZ i) (uGlassSmoothness u)) (mul time (uFlowSpeed u)) in
  displacement (add x offset) (uStripesFrequency u) (uGlassStrength u).

Fixpoint glassLoop (x time : spec_float) (n : nat) (i : Z) (d : spec_float)
  : spec_float :=
  match n with
  | O => d
  | S n' => glassLoop x time n' (i + 1)%Z (add d (glassTerm x time i))
  end.

Definition fractalGlass (x time : spec_float) : spec_float :=
  let d := glassLoop x time 11 (-5)%Z zero in
  let d := div d (ofZ 11) in
  add x d.

Definition smoothEdge (x padding : spec_float) : spec_float :=
  let edge := padding in
  if ltb x edge then smoothstep zero edge x
  else if ltb (sub one edge) x then smoothstep one (sub one edge) x
  else one.

End Fragment.

(** The uniforms of the exact model as the floats a draw call uploads. *)
Definition upload (u : Shader.Uniforms) : Uniforms :=
  let v (a : GLSL.vec2) := Vec2 (ofQ (GLSL.vx a)) (ofQ (GLSL.vy a)) in
  {| uResolution := v (Shader.uResolution u);
     uTextureSize := v (Shader.uTextureSize u);
     uMouse := v (Shader.uMouse u);
     uTime := ofQ (Shader.uTime u);
     uParallaxStrength := ofQ (Shader.uParallaxStrength u);
     uDistortionMultiplier := ofQ (Shader.uDistortionMultiplier u);
     uGlassStrength := ofQ (Shader.uGlassStrength u);
     uStripesFrequency := ofQ (Shader.uStripesFrequency u);
     uGlassSmoothness := ofQ (Shader.uGlassSmoothness u);
     uEdgePadding := ofQ (Shader.uEdgePadding u);
     uFlowSpeed := ofQ (Shader.uFlowSpeed u) |}.

End Shader32.

(** ** Facts about the GLSL built-ins *)

Module GLSLFacts.
Import GLSL.
Local Open Scope Q_scope.

Lemma Qltb_spec (a b : Q) : BoolSpec (a < b) (b <= a) (Qltb a b).
Proof.
  unfold Qltb. destruct (Qle_bool b a) eqn:E; constructor.
  - now apply Qle_bool_iff.
  - apply Qnot_le_lt. intros H. apply Qle_bool_iff in H. congruence.
Qed.

Lemma Qle_bool_spec (a b : Q) : BoolSpec (a <= b) (b < a) (Qle_bool a b).
Proof.
  destruct (Qle_bool a b) eqn:E; constructor.
  - now apply Qle_bool_iff.
  - apply Qnot_le_lt. intros H. apply Qle_bool_iff in H. congruence.
Qed.

(** Case analysis on every comparison the built-ins make. *)
Ltac glsl_cases :=
  repeat match goal with
         | |- context [Qltb ?a ?b] => destruct (Qltb_spec a b)
         | |- context [Qle_bool ?a ?b] => destruct (Qle_bool_spec a b)
         end.

#[export] Instance Qltb_comp : Proper (Qeq ==> Qeq ==> eq) Qltb.
Proof. intros a a' Ha b b' Hb. unfold Qltb. now rewrite Ha, Hb. Qed.

#[export] Instance abs_comp : Proper (Qeq ==> Qeq) abs.
Proof. intros a a' Ha. unfold abs. glsl_cases; lra. Qed.

#[export] Instance sign_comp : Proper (Qeq ==> Qeq) sign.
Proof. intros a a' Ha. unfold sign. glsl_cases; lra. Qed.

#[export] Instance floor_comp : Proper (Qeq ==> Qeq) floor.
Proof. intros a a' Ha. unfold floor. rewrite Ha. reflexivity. Qed.

#[export] Instance mod_comp : Proper (Qeq ==> Qeq ==> Qeq) mod_.
Proof. intros a a' Ha b b' Hb. unfold mod_. rewrite Ha, Hb. reflexivity. Qed.

#[export] Instance min_comp : Proper (Qeq ==> Qeq ==> Qeq) min.
Proof. intros a a' Ha b b' Hb. unfold min. glsl_cases; lra. Qed.

#[export] Instance max_comp : Proper (Qeq ==> Qeq ==> Qeq) max.
Proof. intros a a' Ha b b' Hb. unfold max. glsl_cases; lra. Qed.

#[export] Instance clamp_comp : Proper (Qeq ==> Qeq ==> Qeq ==> Qeq) clamp.
Proof. intros a a' Ha b b' Hb c c' Hc. unfold clamp. rewrite Ha, Hb, Hc. reflexivity. Qed.

#[export] Instance veq_equiv : Equivalence veq.
Proof.
  split.
  - intros a. split; reflexivity.
  - intros a b [H1 H2]. split; now symmetry.
  - intros a b c [H1 H2] [H3 H4]. split; etransitivity; eassumption.
Qed.



Lemma max_ge_l (a b : Q) : a <= max a b.
Proof. unfold max. glsl_cases; lra. Qed.

Lemma max_ge_r (a b : Q) : b <= max a b.
Proof. unfold max. glsl_cases; lra. Qed.

Lemma clamp_range (x lo hi : Q) : lo <= hi -> lo <= clamp x lo hi <= hi.
Proof. intros H. unfold clamp, min, max. glsl_cases; lra. Qed.

Lemma clamp_inside (x lo hi : Q) : lo <= x -> x <= hi -> clamp x lo hi = x.
Proof.
  intros H1 H2. unfold clamp, max.
  destruct (Qltb_spec x lo); [lra |].
  unfold min. destruct (Qltb_spec hi x); [lra | reflexivity].
Qed.

Lemma Qfloor_succ (q : Q) : Qfloor (q + 1) = (Qfloor q + 1)%Z.
Proof.
  destruct q as [n d]. unfold Qplus, Qfloor. simpl.
  rewrite !Z.mul_1_r, Pos.mul_1_r.
  rewrite Z.div_add by discriminate. reflexivity.
Qed.

Lemma floor_succ (q : Q) : floor (q + 1) == floor q + 1.
Proof. unfold floor. rewrite Qfloor_succ, inject_Z_plus. reflexivity. Qed.

(** The sawtooth [mod(x, m)] has period [m]. *)
Lemma mod_period (x m : Q) : ~ m == 0 -> mod_ (x + m) m == mod_ x m.
Proof.
  intros Hm. unfold mod_.
  assert (E : (x + m) / m == x / m + 1) by (field; exact Hm).
  rewrite E, floor_succ. ring.
Qed.

(** The ease curve of [smoothstep] is monotone on the unit interval. *)
Lemma ease_mono (a b : Q) :
  0 <= a -> a <= b -> b <= 1 ->
  a * a * (3 - 2 * a) <= b * b * (3 - 2 * b).
Proof.
  intros H0 Hab H1.
  assert (P1 : 0 <= (b - a) * (a * (1 - a)))
    by (apply Qmult_le_0_compat; [| apply Qmult_le_0_compat]; lra).
  assert (P2 : 0 <= (b - a) * (b * (1 - b)))
    by (apply Qmult_le_0_compat; [| apply Qmult_le_0_compat]; lra).
  assert (P3 : 0 <= (b - a) * (a * (1 - b)))
    by (apply Qmult_le_0_compat; [| apply Qmult_le_0_compat]; lra).
  assert (P4 : 0 <= (b - a) * (b * (1 - a)))
    by (apply Qmult_le_0_compat; [| apply Qmult_le_0_compat]; lra).
  lra.
Qed.

End GLSLFacts.

(** ** The fragment shader: cover fit, edge fade, ripple, parallax, clamp *)

Module ShaderSpec.
Import GLSL Shader GLSLFacts.
Local Open Scope Q_scope.

#[export] Instance getCoverUV_comp (u : Uniforms) :
  Proper (veq ==> eq ==> veq) (getCoverUV u).
Proof.
  intros a b [Hx Hy] ts ? <-. unfold getCoverUV.
  destruct (Qltb (vx ts) 1 || Qltb (vy ts) 1); [split; assumption |].
  split; simpl; [rewrite Hx | rewrite Hy]; reflexivity.
Qed.

#[export] Instance vclamp_comp : Proper (veq ==> Qeq ==> Qeq ==> veq) vclamp.
Proof.
  intros a b [Hx Hy] lo lo' Hlo hi hi' Hhi. split; simpl.
  - rewrite Hx, Hlo, Hhi. reflexivity.
  - rewrite Hy, Hlo, Hhi. reflexivity.
Qed.

Lemma getCoverUV_guard_false (u : Uniforms) (uv ts : vec2) :
  1 <= vx ts -> 1 <= vy ts ->
  getCoverUV u uv ts =
  vdiv (vsub (vmul uv (uResolution u)) (coverOffset u ts)) (coverScaledSize u ts).
Proof.
  intros Hx Hy. unfold getCoverUV.
  destruct (Qltb_spec (vx ts) 1); [lra |].
  destruct (Qltb_spec (vy ts) 1); [lra |]. reflexivity.
Qed.

(** In exact arithmetic (the shader rounds every operation, see
    [Shader32Spec.getCoverUV32_cover] for what it computes): for a texture
    of at least one pixel on each axis, [getCoverUV] maps
    with the scale [max(w/tw, h/th)]; the scaled texture is at least as large
    as the viewport on both axes and its centre is the viewport's centre.
    For a texture of 800x600 in a viewport of 1600x900 the scale is 2, the
    scaled size (1600, 1200) and the vertical offset -150. *)
Lemma getCoverUV_covers :
  (forall (u : Uniforms) (uv ts : vec2),
      1 <= vx ts -> 1 <= vy ts ->
      let w := vx (uResolution u) in
      let h := vy (uResolution u) in
      let scale := max (w / vx ts) (h / vy ts) in
      let scaledSize := Vec2 (vx ts * scale) (vy ts * scale) in
      let offset :=
        Vec2 ((w - vx scaledSize) * (1 # 2)) ((h - vy scaledSize) * (1 # 2)) in
      getCoverUV u uv ts = vdiv (vsub (vmul uv (uResolution u)) offset) scaledSize
      /\ w <= vx scaledSize /\ h <= vy scaledSize
      /\ veq (vadd offset (vscale scaledSize (1 # 2)))
             (vscale (uResolution u) (1 # 2)))
  /\ (forall u : Uniforms,
         uResolution u = Vec2 1600 900 ->
         coverScale u (Vec2 800 600) == 2
         /\ veq (coverScaledSize u (Vec2 800 600)) (Vec2 1600 1200)
         /\ vy (coverOffset u (Vec2 800 600)) == - (150)).
Proof.
  split.
  - intros u uv ts Hx Hy w h scale scaledSize offset.
    split; [apply getCoverUV_guard_false; assumption |].
    assert (Ew : w / vx ts * vx ts == w) by (field; lra).
    assert (Eh : h / vy ts * vy ts == h) by (field; lra).
    pose proof (max_ge_l (w / vx ts) (h / vy ts)) as Ml.
    pose proof (max_ge_r (w / vx ts) (h / vy ts)) as Mr.
    fold scale in Ml, Mr.
    repeat split; simpl.
    + rewrite <- Ew at 1. rewrite (Qmult_comm (vx ts)).
      apply Qmult_le_compat_r; lra.
    + rewrite <- Eh at 1. rewrite (Qmult_comm (vy ts)).
      apply Qmult_le_compat_r; lra.
    + unfold w. ring.
    + unfold h. ring.
  - intros u Hres. unfold coverOffset, coverScaledSize, coverScale.
    rewrite Hres. repeat split; reflexivity.
Qed.

(** C6. A texture size below one pixel on either axis makes [getCoverUV]
    return its input UV, whatever the UV and the resolution. *)
Theorem getCoverUV_degenerate (u : Uniforms) (uv ts : vec2) :
  vx ts < 1 \/ vy ts < 1 -> getCoverUV u uv ts = uv.
Proof.
  intros H. unfold getCoverUV.
  destruct (Qltb_spec (vx ts) 1); [reflexivity |].
  destruct (Qltb_spec (vy ts) 1); [reflexivity |].
  lra.
Qed.

Lemma smoothEdge_rising (x p : Q) :
  0 < p -> 0 <= x -> x < p ->
  exists a, a * p == x /\ 0 <= a /\ a < 1 /\
            smoothEdge x p = a * a * (3 - 2 * a).
Proof.
  intros Hp H0 Hx. exists ((x - 0) / (p - 0)).
  assert (E : (x - 0) / (p - 0) * p == x) by (field; lra).
  set (a := (x - 0) / (p - 0)) in *.
  assert (Ha0 : 0 <= a) by nra.
  assert (Ha1 : a < 1) by nra.
  repeat split; try assumption.
  unfold smoothEdge. destruct (Qltb_spec x p); [| lra].
  unfold smoothstep. fold a. rewrite clamp_inside by lra. reflexivity.
Qed.

Lemma smoothEdge_falling (x p : Q) :
  0 < p -> p < 1 # 2 -> 1 - p < x -> x <= 1 ->
  exists a, a * p == 1 - x /\ 0 <= a /\ a < 1 /\
            smoothEdge x p = a * a * (3 - 2 * a).
Proof.
  intros Hp Hp2 Hx H1. exists ((x - 1) / (1 - p - 1)).
  assert (E : (x - 1) / (1 - p - 1) * p == 1 - x) by (field; lra).
  set (a := (x - 1) / (1 - p - 1)) in *.
  assert (Ha0 : 0 <= a) by nra.
  assert (Ha1 : a < 1) by nra.
  repeat split; try assumption.
  unfold smoothEdge. destruct (Qltb_spec x p); [lra |].
  destruct (Qltb_spec (1 - p) x); [| lra].
  unfold smoothstep. fold a. rewrite clamp_inside by lra. reflexivity.
Qed.

Lemma smoothEdge_interior (x p : Q) :
  p <= x -> x <= 1 - p -> smoothEdge x p = 1.
Proof.
  intros H1 H2. unfold smoothEdge.
  destruct (Qltb_spec x p); [lra |].
  destruct (Qltb_spec (1 - p) x); [lra | reflexivity].
Qed.

Lemma ease_le_1 (a : Q) : 0 <= a -> a <= 1 -> a * a * (3 - 2 * a) <= 1.
Proof.
  intros H0 H1. pose proof (ease_mono a 1 H0 H1 (Qle_refl 1)) as H. lra.
Qed.

(** In exact arithmetic (for the rounded shader see
    [Shader32Spec.smoothEdge32_profile]): for a padding strictly between 0
    and 1/2, [smoothEdge] is 0 at 0 and
    at 1, is 1 at 1/2 and on all of [[p, 1-p]], rises on [[0, p]] and falls
    on [[1-p, 1]]. *)
Lemma smoothEdge_profile (p : Q) :
  0 < p -> p < 1 # 2 ->
  smoothEdge 0 p == 0
  /\ smoothEdge 1 p == 0
  /\ smoothEdge (1 # 2) p == 1
  /\ (forall x y, 0 <= x -> x <= y -> y <= p ->
                  smoothEdge x p <= smoothEdge y p)
  /\ (forall x y, 1 - p <= x -> x <= y -> y <= 1 ->
                  smoothEdge y p <= smoothEdge x p)
  /\ (forall x, p <= x -> x <= 1 - p -> smoothEdge x p == 1).
Proof.
  intros Hp Hp2. repeat split.
  - destruct (smoothEdge_rising 0 p) as (a & E & _ & _ & ->); try lra.
    assert (a == 0) by nra. nra.
  - destruct (smoothEdge_falling 1 p) as (a & E & _ & _ & ->); try lra.
    assert (a == 0) by nra. nra.
  - rewrite smoothEdge_interior by lra. reflexivity.
  - intros x y H0 Hxy Hy.
    destruct (Qlt_le_dec y p) as [Hyp | Hyp].
    + destruct (smoothEdge_rising x p) as (a & Ea & Ha0 & Ha1 & ->); try lra.
      destruct (smoothEdge_rising y p) as (b & Eb & Hb0 & Hb1 & ->); try lra.
      apply ease_mono; nra.
    + rewrite (smoothEdge_interior y p) by lra.
      destruct (Qlt_le_dec x p) as [Hxp | Hxp].
      * destruct (smoothEdge_rising x p) as (a & Ea & Ha0 & Ha1 & ->); try lra.
        apply ease_le_1; lra.
      * rewrite (smoothEdge_interior x p) by lra. lra.
  - intros x y Hx Hxy Hy.
    destruct (Qlt_le_dec (1 - p) x) as [Hxp | Hxp].
    + destruct (smoothEdge_falling x p) as (a & Ea & Ha0 & Ha1 & ->); try lra.
      destruct (smoothEdge_falling y p) as (b & Eb & Hb0 & Hb1 & ->); try lra.
      apply ease_mono; nra.
    + rewrite (smoothEdge_interior x p) by lra.
      destruct (Qlt_le_dec (1 - p) y) as [Hyp | Hyp].
      * destruct (smoothEdge_falling y p) as (b & Eb & Hb0 & Hb1 & ->); try lra.
        apply ease_le_1; lra.
      * rewrite (smoothEdge_interior y p) by lra. lra.
  - intros x H1 H2. rewrite smoothEdge_interior by assumption. reflexivity.
Qed.

Section Ripple.
Variable u : Uniforms.

(** The loop only adds: two runs whose bodies agree agree. *)
Lemma glassLoop_ext (x t x' t' : Q) :
  (forall i, glassTerm u x t i == glassTerm u x' t' i) ->
  forall n i d d', d == d' ->
              glassLoop u x t n i d == glassLoop u x' t' n i d'.
Proof.
  intros Hterm. induction n as [| n IH]; intros i d d' Hd; simpl.
  - exact Hd.
  - apply IH. rewrite Hd, (Hterm i). reflexivity.
Qed.

Lemma glassTerm_period (x t : Q) (i : Z) :
  ~ uStripesFrequency u == 0 ->
  glassTerm u (x + 1 / uStripesFrequency u) t i == glassTerm u x t i.
Proof.
  intros Hf. unfold glassTerm, displacement.
  set (m := 1 / uStripesFrequency u).
  assert (Hm : ~ m == 0).
  { unfold m. intros E. apply Hf.
    assert (E' : uStripesFrequency u * (1 / uStripesFrequency u) == 1)
      by (field; exact Hf).
    rewrite E in E'. lra. }
  set (o := inject_Z i * uGlassSmoothness u + t * uFlowSpeed u).
  assert (E : x + m + o == x + o + m) by ring.
  rewrite E, (mod_period _ _ Hm). reflexivity.
Qed.

Lemma glassTerm_shift (x t D : Q) (i : Z) :
  glassTerm u x (t + D) i == glassTerm u (x + D * uFlowSpeed u) t i.
Proof.
  unfold glassTerm, displacement.
  set (m := 1 / uStripesFrequency u).
  assert (E : x + (inject_Z i * uGlassSmoothness u + (t + D) * uFlowSpeed u)
              == x + D * uFlowSpeed u
                 + (inject_Z i * uGlassSmoothness u + t * uFlowSpeed u)) by ring.
  rewrite E. reflexivity.
Qed.

(** In exact arithmetic (for the rounded shader see
    [Shader32Spec.fractalGlass32_ripple]): the displacement
    [fractalGlass(x,t) - x] is the average of the eleven
    sawtooth terms for [i] from -5 to 5; it has period [1/uStripesFrequency]
    in [x] at every fixed time, and advancing the time by [D] is the same as
    advancing [x] by [D * uFlowSpeed]. *)
Lemma fractalGlass_periodic_shift :
  ~ uStripesFrequency u == 0 ->
  (forall x t,
      fractalGlass u x t - x ==
      fold_left Qplus
        (map (fun i : Z =>
                mod_ (x + (inject_Z i * uGlassSmoothness u + t * uFlowSpeed u))
                     (1 / uStripesFrequency u) * uGlassStrength u)
             [-5; -4; -3; -2; -1; 0; 1; 2; 3; 4; 5]%Z) 0 / 11)
  /\ (forall x t,
         fractalGlass u (x + 1 / uStripesFrequency u) t
         - (x + 1 / uStripesFrequency u)
         == fractalGlass u x t - x)
  /\ (forall x t D,
         fractalGlass u x (t + D) - x
         == fractalGlass u (x + D * uFlowSpeed u) t - (x + D * uFlowSpeed u)).
Proof.
  intros Hf. repeat split.
  - intros x t. unfold fractalGlass. cbv [glassLoop map fold_left].
    repeat match goal with
           | |- context [glassTerm u x t ?z] =>
               progress (let z' := eval vm_compute in z in change z with z')
           end.
    unfold glassTerm, displacement. ring.
  - intros x t. unfold fractalGlass.
    rewrite (glassLoop_ext (x + 1 / uStripesFrequency u) t x t
               (fun i => glassTerm_period x t i Hf) 11 (-5)%Z 0 0 (Qeq_refl 0)).
    ring.
  - intros x t D. unfold fractalGlass.
    rewrite (glassLoop_ext x (t + D) (x + D * uFlowSpeed u) t
               (fun i => glassTerm_shift x t D i) 11 (-5)%Z 0 0 (Qeq_refl 0)).
    ring.
Qed.

End Ripple.

Section Parallax.
Variable u : Uniforms.





End Parallax.

(** With a texture size of (1,1) the guard of [getCoverUV] does not fire: the
    texture is fitted as a one-pixel square. *)
Lemma getCoverUV_unit_texture (u : Uniforms) (uv : vec2) :
  0 < vx (uResolution u) -> 0 < vy (uResolution u) ->
  let w := vx (uResolution u) in
  let h := vy (uResolution u) in
  let m := max w h in
  veq (getCoverUV u uv (Vec2 1 1))
      (Vec2 ((vx uv * w + (m - w) / 2) / m) ((vy uv * h + (m - h) / 2) / m)).
Proof.
  intros Hw Hh w h m.
  rewrite getCoverUV_guard_false by (simpl; lra).
  unfold coverOffset, coverScaledSize, coverScale, veq.
  unfold vdiv, vsub, vmul, vscale. cbn [vx vy].
  fold w h. change (0 < w) in Hw. change (0 < h) in Hh. clearbody w h.
  assert (Em : max (w / 1) (h / 1) == m).
  { unfold m. apply max_comp; field. }
  assert (Hm : 0 < m).
  { pose proof (max_ge_l w h) as Ml. fold m in Ml. lra. }
  clearbody m.
  split; rewrite Em; field; lra.
Qed.

Lemma getCoverUV_unit_texture_identity (u : Uniforms) :
  0 < vx (uResolution u) -> 0 < vy (uResolution u) ->
  (forall uv, veq (getCoverUV u uv (Vec2 1 1)) uv)
  <-> vx (uResolution u) == vy (uResolution u).
Proof.
  intros Hw Hh.
  pose proof (fun uv => getCoverUV_unit_texture u uv Hw Hh) as Hc.
  cbv zeta in Hc. revert Hw Hh Hc.
  generalize (vx (uResolution u)) (vy (uResolution u)). intros w h Hw Hh Hc.
  pose proof (max_ge_l w h) as Ml. pose proof (max_ge_r w h) as Mr.
  assert (Emw : w == h -> max w h == w) by (unfold max; glsl_cases; lra).
  revert Hc Ml Mr Emw. generalize (max w h). intros m Hc Ml Mr Emw.
  split.
  - intros Hid.
    destruct (Hc (Vec2 0 0)) as [Ex Ey]. destruct (Hid (Vec2 0 0)) as [Ix Iy].
    rewrite Ex in Ix. rewrite Ey in Iy. cbn [vx vy] in Ix, Iy.
    assert (Ax : (0 * w + (m - w) / 2) / m * m == 0) by (rewrite Ix; ring).
    assert (Ay : (0 * h + (m - h) / 2) / m * m == 0) by (rewrite Iy; ring).
    assert (Bx : (0 * w + (m - w) / 2) / m * m == (m - w) * (1 # 2))
      by (field; lra).
    assert (By : (0 * h + (m - h) / 2) / m * m == (m - h) * (1 # 2))
      by (field; lra).
    rewrite Bx in Ax. rewrite By in Ay. clear Hc Ex Ey Ix Iy Bx By Hid. lra.
  - intros E uv. specialize (Emw E).
    destruct (Hc uv) as [Ex Ey].
    split; [rewrite Ex | rewrite Ey]; cbn [vx vy]; rewrite Emw.
    + field. lra.
    + rewrite <- E. field. lra.
Qed.

(** *** The theorems at the shipped settings *)

(** Closed comparisons of rationals, by evaluation. *)
Ltac qdec := vm_compute; first [reflexivity | discriminate].

Lemma getCoverUV_covers_witness :
  let u := defaults 1600 900 in
  let ts := Vec2 800 600 in
  1 <= vx ts /\ 1 <= vy ts
  /\ vx (uResolution u) <= vx ts * max (1600 / 800) (900 / 600)
  /\ vy (uResolution u) <= vy ts * max (1600 / 800) (900 / 600).
Proof.
  intros u ts.
  assert (H1 : 1 <= vx ts) by qdec.
  assert (H2 : 1 <= vy ts) by qdec.
  destruct (proj1 getCoverUV_covers u (Vec2 (1 # 2) (1 # 2)) ts H1 H2)
    as (_ & A & B & _).
  exact (conj H1 (conj H2 (conj A B))).
Defined.

Lemma getCoverUV_degenerate_witness :
  (vx (Vec2 (1 # 2) 5) < 1 \/ vy (Vec2 (1 # 2) 5) < 1)
  /\ getCoverUV (defaults 1600 900) (Vec2 (1 # 3) (1 # 4)) (Vec2 (1 # 2) 5)
     = Vec2 (1 # 3) (1 # 4).
Proof.
  assert (H : vx (Vec2 (1 # 2) 5) < 1 \/ vy (Vec2 (1 # 2) 5) < 1)
    by (left; qdec).
  exact (conj H (getCoverUV_degenerate (defaults 1600 900)
                   (Vec2 (1 # 3) (1 # 4)) (Vec2 (1 # 2) 5) H)).
Defined.

Lemma smoothEdge_profile_witness :
  0 < 1 # 10 /\ 1 # 10 < 1 # 2
  /\ smoothEdge 0 (1 # 10) == 0
  /\ smoothEdge 1 (1 # 10) == 0
  /\ smoothEdge (1 # 20) (1 # 10) <= smoothEdge (1 # 15) (1 # 10)
  /\ smoothEdge (29 # 30) (1 # 10) <= smoothEdge (19 # 20) (1 # 10).
Proof.
  assert (H1 : 0 < 1 # 10) by qdec.
  assert (H2 : 1 # 10 < 1 # 2) by qdec.
  destruct (smoothEdge_profile (1 # 10) H1 H2) as (A & B & _ & Up & Down & _).
  refine (conj H1 (conj H2 (conj A (conj B (conj _ _))))).
  - apply Up; qdec.
  - apply Down; qdec.
Defined.

Lemma fractalGlass_periodic_shift_witness :
  let u := defaults 1600 900 in
  ~ uStripesFrequency u == 0
  /\ fractalGlass u ((1 # 3) + 1 / uStripesFrequency u) 0
     - ((1 # 3) + 1 / uStripesFrequency u)
     == fractalGlass u (1 # 3) 0 - (1 # 3)
  /\ fractalGlass u (1 # 3) (0 + 7) - (1 # 3)
     == fractalGlass u ((1 # 3) + 7 * uFlowSpeed u) 0
        - ((1 # 3) + 7 * uFlowSpeed u).
Proof.
  intros u.
  assert (H : ~ uStripesFrequency u == 0) by qdec.
  destruct (fractalGlass_periodic_shift u H) as (_ & P & S).
  exact (conj H (conj (P (1 # 3) 0) (S (1 # 3) 0 7))).
Defined.


End ShaderSpec.

(** ** The mounted component: handlers, frames and teardown *)

Module ComponentSpec.
Import GLSL Component.
Local Open Scope Q_scope.

Lemma elem_of_addEventListener ty h hs :
  (ty, h) ∈ listeners (addEventListener ty h hs).
Proof.
  unfold addEventListener. simpl. case_decide; [assumption |].
  apply elem_of_app. right. apply list_elem_of_singleton. reflexivity.
Qed.

Lemma elem_of_addEventListener_keep ty h p hs :
  p ∈ listeners hs → p ∈ listeners (addEventListener ty h hs).
Proof.
  intros H. unfold addEventListener. simpl. case_decide; [assumption |].
  apply elem_of_app. left. assumption.
Qed.

Lemma mount_Some hs s :
  mount hs = Some s →
  containerRef hs = true
  ∧ s = animate
          (mkState
             (addEventListener Resize OnResize
                (addEventListener Mousemove OnMouseMove (appendChild Canvas hs)))
             (mkClosure
                (<[2%nat := Vec2 (innerWidth hs / 2) (innerHeight hs / 2)]>
                   (<[1%nat := Vec2 1 1]>
                      (<[0%nat := Vec2 (innerWidth hs) (innerHeight hs)]> ∅)))
                (mkJSUniforms 0 1 2 0 (1 # 10) 10 2 35 (1 # 100000) (1 # 10)
                              (1 # 100))
                (innerWidth hs / innerHeight hs)
                (innerWidth hs / innerHeight hs)
                (Vec2 (innerWidth hs) (innerHeight hs))
                (Math_min (devicePixelRatio hs) 2) (Some Canvas) None
                [Renderer; Geometry; Texture; Material])).
Proof.
  unfold mount. destruct (containerRef hs); [| discriminate].
  intros [= <-]. split; reflexivity.
Qed.

Lemma mount_wired hs s : mount hs = Some s → wired s.
Proof.
  intros H. apply mount_Some in H as [_ ->].
  split; try (simpl; discriminate).
  - reflexivity.
  - eexists. reflexivity.
  - eexists. reflexivity.
  - apply elem_of_addEventListener_keep, elem_of_addEventListener.
  - apply elem_of_addEventListener.
Qed.

Lemma setX_lookup_ne l a c l' :
  l ≠ l' → store (setX l a c) !! l' = store c !! l'.
Proof. intros H. unfold setX. simpl. apply lookup_alter_ne, H. Qed.

Lemma setY_lookup_ne l b c l' :
  l ≠ l' → store (setY l b c) !! l' = store c !! l'.
Proof. intros H. unfold setY. simpl. apply lookup_alter_ne, H. Qed.

Lemma vectorSet_lookup_ne l a b c l' :
  l ≠ l' → store (vectorSet l a b c) !! l' = store c !! l'.
Proof.
  intros H. unfold vectorSet. rewrite setY_lookup_ne, setX_lookup_ne; auto.
Qed.

Lemma vectorSet_lookup l a b c :
  is_Some (store c !! l) → store (vectorSet l a b c) !! l = Some (Vec2 a b).
Proof.
  intros [v Hv]. unfold vectorSet, setY, setX. simpl.
  rewrite !lookup_alter_eq, Hv. reflexivity.
Qed.

Lemma onMouseMove_lookup cx cy c :
  is_Some (store c !! uMouse (uniforms c)) →
  store (onMouseMove cx cy c) !! uMouse (uniforms c) = Some (Vec2 cx cy).
Proof. apply vectorSet_lookup. Qed.

Lemma onMouseMove_lookup_ne cx cy c l :
  l ≠ uMouse (uniforms c) →
  store (onMouseMove cx cy c) !! l = store c !! l.
Proof. intros H. apply vectorSet_lookup_ne. congruence. Qed.

Lemma onMouseMove_rest cx cy c :
  onMouseMove cx cy c = set_store (store (onMouseMove cx cy c)) c.
Proof. reflexivity. Qed.

Lemma onMouseMove_wired cx cy s :
  wired s → wired (mkState (host s) (onMouseMove cx cy (clo s))).
Proof.
  intros [H1 H2 H3 H4 H5 H6 H7 H8]. split; try assumption.
  - change (store (onMouseMove cx cy (clo s)) !! uResolution (uniforms (clo s))
            = Some (Vec2 (innerWidth (host s)) (innerHeight (host s)))).
    rewrite onMouseMove_lookup_ne; assumption.
  - change (is_Some (store (onMouseMove cx cy (clo s))
                     !! uTextureSize (uniforms (clo s)))).
    rewrite onMouseMove_lookup_ne; assumption.
  - change (is_Some (store (onMouseMove cx cy (clo s))
                     !! uMouse (uniforms (clo s)))).
    rewrite onMouseMove_lookup; [eexists; reflexivity | assumption].
Qed.

Lemma onResize_store s :
  store (clo (onResize s))
  = store (vectorSet (uResolution (uniforms (clo s)))
                     (innerWidth (host s)) (innerHeight (host s)) (clo s)).
Proof. reflexivity. Qed.

Lemma onResize_wired w h s :
  wired s → wired (onResize (mkState (set_inner w h (host s)) (clo s))).
Proof.
  intros [H1 H2 H3 H4 H5 H6 H7 H8]. split; try assumption.
  - change (store (clo (onResize (mkState (set_inner w h (host s)) (clo s))))
            !! uResolution (uniforms (clo s)) = Some (Vec2 w h)).
    rewrite onResize_store. apply vectorSet_lookup. eexists. exact H4.
  - change (is_Some
              (store (clo (onResize (mkState (set_inner w h (host s)) (clo s))))
               !! uTextureSize (uniforms (clo s)))).
    rewrite onResize_store, vectorSet_lookup_ne; assumption.
  - change (is_Some
              (store (clo (onResize (mkState (set_inner w h (host s)) (clo s))))
               !! uMouse (uniforms (clo s)))).
    rewrite onResize_store, vectorSet_lookup_ne; assumption.
Qed.

Lemma animate_wired s hs :
  wired s →
  innerWidth hs = innerWidth (host s) →
  innerHeight hs = innerHeight (host s) →
  listeners hs = listeners (host s) →
  wired (animate (mkState hs (clo s))).
Proof.
  intros [H1 H2 H3 H4 H5 H6 H7 H8] Ew Eh El.
  split; try assumption.
  - change (store (clo s) !! uResolution (uniforms (clo s))
            = Some (Vec2 (innerWidth hs) (innerHeight hs))).
    rewrite Ew, Eh. assumption.
  - change ((Mousemove, OnMouseMove) ∈ listeners hs). rewrite El. assumption.
  - change ((Resize, OnResize) ∈ listeners hs). rewrite El. assumption.
Qed.

Lemma onTextureLoad_wired tw th s :
  wired s → wired (mkState (host s) (onTextureLoad tw th (clo s))).
Proof.
  intros [H1 H2 H3 H4 H5 H6 H7 H8]. split; try assumption.
  - change (store (vectorSet (uTextureSize (uniforms (clo s))) tw th (clo s))
            !! uResolution (uniforms (clo s))
            = Some (Vec2 (innerWidth (host s)) (innerHeight (host s)))).
    rewrite vectorSet_lookup_ne; [assumption | congruence].
  - change (is_Some
              (store (vectorSet (uTextureSize (uniforms (clo s))) tw th (clo s))
               !! uTextureSize (uniforms (clo s)))).
    rewrite vectorSet_lookup; [eexists; reflexivity | assumption].
  - change (is_Some
              (store (vectorSet (uTextureSize (uniforms (clo s))) tw th (clo s))
               !! uMouse (uniforms (clo s)))).
    rewrite vectorSet_lookup_ne; assumption.
Qed.

Lemma fire_wired e s : wired s → wired (fire e s).
Proof.
  intros W. destruct e as [cx cy | w h | id | tw th]; simpl.
  - case_decide; [apply onMouseMove_wired |]; assumption.
  - case_decide as Hl; [apply onResize_wired; assumption |].
    exfalso. apply Hl. apply (wired_resize _ W).
  - destruct (rafQueue (host s) !! id) as [[| n] |]; try assumption.
    apply animate_wired; [assumption | reflexivity ..].
  - apply onTextureLoad_wired. assumption.
Qed.

Lemma run_wired evs : ∀ s, wired s → wired (run evs s).
Proof.
  induction evs as [| e evs IH]; intros s W; [exact W |].
  apply IH, fire_wired, W.
Qed.

(** The invariant of the data model: in every state a mounted component can
    reach, the resolution uniform is the window's inner size. *)
Lemma resolution_invariant hs s0 evs :
  mount hs = Some s0 →
  store (clo (run evs s0)) !! uResolution (uniforms (clo (run evs s0)))
  = Some (Vec2 (innerWidth (host (run evs s0))) (innerHeight (host (run evs s0)))).
Proof. intros H. apply wired_resolution, run_wired, (mount_wired hs), H. Qed.

(** C9. When the window takes the size (w,h) and the resize handler runs on a
    mounted component, the resolution uniform becomes (w,h), the camera's
    aspect and the aspect of the recomputed projection become w/h, and the
    resolution uniform is again the window's inner size. *)
Theorem onResize_restores_resolution hs s0 evs (w h : Q) :
  mount hs = Some s0 →
  let s := run evs s0 in
  let s' := onResize (mkState (set_inner w h (host s)) (clo s)) in
  fire (EvResize w h) s = s'
  ∧ store (clo s') !! uResolution (uniforms (clo s')) = Some (Vec2 w h)
  ∧ cameraAspect (clo s') = w / h
  ∧ projectionAspect (clo s') = w / h
  ∧ store (clo s') !! uResolution (uniforms (clo s'))
    = Some (Vec2 (innerWidth (host s')) (innerHeight (host s'))).
Proof.
  intros Hm s s'.
  assert (W : wired s) by (apply run_wired, (mount_wired hs), Hm).
  pose proof (onResize_wired w h s W) as W'.
  split.
  - simpl. case_decide as Hl; [reflexivity |].
    exfalso. apply Hl, (wired_resize _ W).
  - split; [exact (wired_resolution _ W') |].
    split; [reflexivity |]. split; [reflexivity |].
    exact (wired_resolution _ W').
Qed.

(** C10. A pointer-move event on a mounted component sets the mouse uniform
    to the event's client coordinates and changes nothing else: the host,
    every other cell of the store, the [uniforms] object with its scalars and
    every other field of the closure are as before, and so is every other
    uniform the shader receives. *)
Theorem onMouseMove_only_mouse hs s0 evs (clientX clientY : Q) :
  mount hs = Some s0 →
  let s := run evs s0 in
  let s' := fire (EvMouseMove clientX clientY) s in
  s' = mkState (host s) (onMouseMove clientX clientY (clo s))
  ∧ host s' = host s
  ∧ clo s' = set_store (store (clo s')) (clo s)
  ∧ store (clo s') !! uMouse (uniforms (clo s)) = Some (Vec2 clientX clientY)
  ∧ (∀ l, l ≠ uMouse (uniforms (clo s)) →
          store (clo s') !! l = store (clo s) !! l)
  ∧ ∃ u, shaderUniforms (clo s) = Some u
         ∧ shaderUniforms (clo s')
           = Some (Shader.mkUniforms
                     (Shader.uResolution u) (Shader.uTextureSize u)
                     (Vec2 clientX clientY) (Shader.uTime u)
                     (Shader.uParallaxStrength u)
                     (Shader.uDistortionMultiplier u)
                     (Shader.uGlassStrength u) (Shader.uStripesFrequency u)
                     (Shader.uGlassSmoothness u) (Shader.uEdgePadding u)
                     (Shader.uFlowSpeed u)).
Proof.
  intros Hm s s'.
  assert (W : wired s) by (apply run_wired, (mount_wired hs), Hm).
  assert (E : s' = mkState (host s) (onMouseMove clientX clientY (clo s))).
  { unfold s'. simpl. case_decide as Hl; [reflexivity |].
    exfalso. apply Hl, (wired_mousemove _ W). }
  destruct W as [H1 H2 H3 H4 [ts Hts] [m Hm'] H7 H8].
  rewrite E. simpl host. simpl clo.
  split; [reflexivity |]. split; [reflexivity |].
  split; [apply onMouseMove_rest |].
  split; [apply onMouseMove_lookup; eexists; eassumption |].
  split; [intros l Hl; apply onMouseMove_lookup_ne, Hl |].
  eexists. split.
  - unfold shaderUniforms. rewrite H4, Hts, Hm'. reflexivity.
  - unfold shaderUniforms.
    change (uniforms (onMouseMove clientX clientY (clo s)))
      with (uniforms (clo s)).
    rewrite (onMouseMove_lookup_ne _ _ _ _ H2).
    rewrite (onMouseMove_lookup_ne _ _ _ _ H3).
    rewrite onMouseMove_lookup by (eexists; eassumption).
    rewrite H4, Hts. reflexivity.
Qed.

(** [animate] on a state whose queue holds no [Animate] leaves exactly one,
    under the handle it stores in [animationId]. *)
Lemma animate_scheduled s :
  (∀ id cb, rafQueue (host s) !! id = Some cb →
            cb ≠ Animate ∧ (id < rafNext (host s))%nat) →
  canvasRef (clo s) = Some Canvas →
  Canvas ∈ children (host s) →
  live (clo s) = [Renderer; Geometry; Texture; Material] →
  (∀ ty h, (ty, h) ∈ listeners (host s) → own h →
           (ty, h) = (Mousemove, OnMouseMove) ∨ (ty, h) = (Resize, OnResize)) →
  scheduled (animate s).
Proof.
  intros Hq Hc Hk Hl Ho. split; try assumption.
  - exists (rafNext (host s)). split; [reflexivity |].
    split; [apply lookup_insert_eq |].
    intros id' H. change (<[rafNext (host s) := Animate]> (rafQueue (host s))
                          !! id' = Some Animate) in H.
    destruct (decide (rafNext (host s) = id')) as [E | N]; [congruence |].
    rewrite lookup_insert_ne in H by assumption.
    destruct (Hq _ _ H) as [Hne _]. congruence.
  - intros id cb H. change (<[rafNext (host s) := Animate]> (rafQueue (host s))
                            !! id = Some cb) in H.
    change (id < S (rafNext (host s)))%nat.
    destruct (decide (rafNext (host s) = id)) as [E | N]; [lia |].
    rewrite lookup_insert_ne in H by assumption.
    destruct (Hq _ _ H) as [_ Hlt]. lia.
Qed.

Lemma mount_scheduled hs s : fresh_host hs → mount hs = Some s → scheduled s.
Proof.
  intros [Fl Fq] H. apply mount_Some in H as [_ ->].
  apply animate_scheduled.
  - exact Fq.
  - reflexivity.
  - change (Canvas ∈ filter (λ c, c ≠ Canvas) (children hs) ++ [Canvas]).
    apply elem_of_app. right. apply list_elem_of_singleton. reflexivity.
  - reflexivity.
  - intros ty h Hin Hown.
    unfold addEventListener in Hin. simpl in Hin.
    repeat case_decide;
      repeat (apply elem_of_app in Hin as [Hin | Hin]);
      try (apply list_elem_of_singleton in Hin); auto;
      exfalso; exact (Fl _ _ Hin Hown).
Qed.

(** [scheduled] reads only these seven fields. *)
Lemma scheduled_ext s s' :
  rafQueue (host s') = rafQueue (host s) →
  rafNext (host s') = rafNext (host s) →
  children (host s') = children (host s) →
  listeners (host s') = listeners (host s) →
  animationId (clo s') = animationId (clo s) →
  canvasRef (clo s') = canvasRef (clo s) →
  live (clo s') = live (clo s) →
  scheduled s → scheduled s'.
Proof.
  intros E1 E2 E3 E4 E5 E6 E7 [H1 H2 H3 H4 H5 H6].
  split; rewrite ?E1, ?E2, ?E3, ?E4, ?E5, ?E6, ?E7; assumption.
Qed.

Lemma fire_scheduled e s : scheduled s → scheduled (fire e s).
Proof.
  intros Sc. destruct e as [cx cy | w h | id | tw th]; simpl.
  - case_decide; [| assumption]. revert Sc. apply scheduled_ext; reflexivity.
  - case_decide; revert Sc; apply scheduled_ext; reflexivity.
  - destruct (rafQueue (host s) !! id) as [[| n] |] eqn:Hq; try assumption.
    destruct Sc as [(id0 & Hid & Hpend & Huniq) Hbelow Hc Hk Hl Ho].
    apply animate_scheduled; try assumption.
    intros id' cb H.
    change (delete id (rafQueue (host s)) !! id' = Some cb) in H.
    change (cb ≠ Animate ∧ (id' < rafNext (host s))%nat).
    apply lookup_delete_Some in H as [Hne H]. split.
    + intros ->. apply Hne. rewrite (Huniq _ H), (Huniq _ Hq). reflexivity.
    + exact (Hbelow _ _ H).
  - revert Sc. apply scheduled_ext; reflexivity.
Qed.

Lemma run_scheduled evs : ∀ s, scheduled s → scheduled (run evs s).
Proof.
  induction evs as [| e evs IH]; intros s Sc; [exact Sc |].
  apply IH, fire_scheduled, Sc.
Qed.

(** What [cleanup] does to a mounted component, step by step. *)
Lemma cleanup_scheduled s id :
  animationId (clo s) = Some id →
  canvasRef (clo s) = Some Canvas →
  Canvas ∈ children (host s) →
  cleanup s =
  Some (dispose Renderer (dispose Texture (dispose Material (dispose Geometry
    (mkState
       (logCall (RemoveChild Canvas)
          (set_children (filter (λ c, c ≠ Canvas) (children (host s)))
             (cancelAnimationFrame id
                (removeEventListener Resize OnResize
                   (removeEventListener Mousemove OnMouseMove (host s))))))
       (clo s)))))).
Proof.
  intros Hid Hc Hk. unfold cleanup. rewrite Hid, Hc.
  unfold removeChild.
  rewrite decide_True by exact Hk. reflexivity.
Qed.

(** C2. On a mounted component, whatever events it has seen, the cleanup
    succeeds and makes exactly these host calls in this order: remove the
    pointer-move listener, remove the resize listener, cancel the pending
    animation frame (the handle in [animationId] is the one queued), remove
    the canvas from the container, dispose the geometry, the material, the
    texture and the renderer.  Afterwards no listener of the component is
    attached, no [Animate] callback is queued, the canvas is not in the
    container and no resource is live. *)
Theorem cleanup_order hs s0 evs :
  fresh_host hs →
  mount hs = Some s0 →
  let s := run evs s0 in
  ∃ id s',
    animationId (clo s) = Some id
    ∧ rafQueue (host s) !! id = Some Animate
    ∧ cleanup s = Some s'
    ∧ log (host s')
      = (log (host s)
         ++ [RemoveEventListener Mousemove OnMouseMove;
             RemoveEventListener Resize OnResize;
             CancelAnimationFrame id;
             RemoveChild Canvas;
             Dispose Geometry; Dispose Material; Dispose Texture;
             Dispose Renderer])
    ∧ (∀ ty h, (ty, h) ∈ listeners (host s') → ¬ own h)
    ∧ (∀ id', rafQueue (host s') !! id' ≠ Some Animate)
    ∧ (Canvas ∉ children (host s'))
    ∧ live (clo s') = [].
Proof.
  intros Hf Hm s.
  assert (Sc : scheduled s)
    by (apply run_scheduled, (mount_scheduled hs); assumption).
  destruct Sc as [(id & Hid & Hpend & Huniq) Hbelow Hc Hk Hl Ho].
  exists id. eexists. split; [exact Hid |]. split; [exact Hpend |].
  split; [apply (cleanup_scheduled s id); assumption |].
  split; [simpl; rewrite <- !app_assoc; reflexivity |].
  split.
  { intros ty h Hin Hown.
    change ((ty, h) ∈ filter (λ p, p ≠ (Resize, OnResize))
                        (filter (λ p, p ≠ (Mousemove, OnMouseMove))
                                (listeners (host s)))) in Hin.
    apply list_elem_of_filter in Hin as [N1 Hin].
    apply list_elem_of_filter in Hin as [N2 Hin].
    destruct (Ho _ _ Hin Hown); contradiction. }
  split.
  { intros id' H.
    change (delete id (rafQueue (host s)) !! id' = Some Animate) in H.
    apply lookup_delete_Some in H as [Hne H]. apply Hne.
    symmetry. exact (Huniq _ H). }
  split.
  { change (Canvas ∉ filter (λ c, c ≠ Canvas) (children (host s))).
    intros Hin. apply list_elem_of_filter in Hin as [N _]. contradiction. }
  simpl. rewrite Hl. reflexivity.
Qed.

(** The uniforms of the first draw call are the [uniforms] literal, one time
    step on. *)
Lemma mount_shaderUniforms hs s :
  mount hs = Some s →
  shaderUniforms (clo s)
  = Some (Shader.mkUniforms
            (Vec2 (innerWidth hs) (innerHeight hs)) (Vec2 1 1)
            (Vec2 (innerWidth hs / 2) (innerHeight hs / 2))
            (0 + (1 # 100)) (1 # 10) 10 2 35 (1 # 100000) (1 # 10) (1 # 100)).
Proof. intros H. apply mount_Some in H as [_ ->]. reflexivity. Qed.

Lemma mount_texture_default hs s :
  mount hs = Some s →
  store (clo s) !! uTextureSize (uniforms (clo s)) = Some (Vec2 1 1).
Proof. intros H. apply mount_Some in H as [_ ->]. reflexivity. Qed.

(** Only the load callback writes the texture-size vector. *)
Lemma fire_texture_default e s :
  wired s →
  (∀ tw th, e ≠ EvTextureLoad tw th) →
  store (clo s) !! uTextureSize (uniforms (clo s)) = Some (Vec2 1 1) →
  store (clo (fire e s)) !! uTextureSize (uniforms (clo (fire e s)))
  = Some (Vec2 1 1).
Proof.
  intros W Hne Ht. destruct e as [cx cy | w h | id | tw th]; simpl.
  - case_decide; [| exact Ht].
    change (store (onMouseMove cx cy (clo s)) !! uTextureSize (uniforms (clo s))
            = Some (Vec2 1 1)).
    rewrite onMouseMove_lookup_ne; [exact Ht | exact (wired_tex_mouse _ W)].
  - case_decide; [| exact Ht].
    change (store (clo (onResize (mkState (set_inner w h (host s)) (clo s))))
            !! uTextureSize (uniforms (clo s)) = Some (Vec2 1 1)).
    rewrite onResize_store, vectorSet_lookup_ne;
      [exact Ht | exact (wired_res_tex _ W)].
  - destruct (rafQueue (host s) !! id) as [[| n] |]; exact Ht.
  - exfalso. exact (Hne tw th eq_refl).
Qed.

Lemma run_texture_default evs :
  ∀ s, wired s →
       (∀ tw th, EvTextureLoad tw th ∉ evs) →
       store (clo s) !! uTextureSize (uniforms (clo s)) = Some (Vec2 1 1) →
       store (clo (run evs s)) !! uTextureSize (uniforms (clo (run evs s)))
       = Some (Vec2 1 1).
Proof.
  induction evs as [| e evs IH]; intros s W Hno Ht; [exact Ht |].
  apply IH.
  - apply fire_wired, W.
  - intros tw th Hin. apply (Hno tw th). right. exact Hin.
  - apply fire_texture_default; [exact W | | exact Ht].
    intros tw th ->. apply (Hno tw th). left.
Qed.

Lemma wired_shaderUniforms s :
  wired s →
  ∃ ts m,
    store (clo s) !! uTextureSize (uniforms (clo s)) = Some ts
    ∧ shaderUniforms (clo s)
      = Some (Shader.mkUniforms
                (Vec2 (innerWidth (host s)) (innerHeight (host s))) ts m
                (uTime (uniforms (clo s)))
                (uParallaxStrength (uniforms (clo s)))
                (uDistortionMultiplier (uniforms (clo s)))
                (uGlassStrength (uniforms (clo s)))
                (uStripesFrequency (uniforms (clo s)))
                (uGlassSmoothness (uniforms (clo s)))
                (uEdgePadding (uniforms (clo s)))
                (uFlowSpeed (uniforms (clo s)))).
Proof.
  intros [H1 H2 H3 H4 [ts Hts] [m Hm] H7 H8]. exists ts, m.
  split; [exact Hts |]. unfold shaderUniforms. rewrite H4, Hts, Hm. reflexivity.
Qed.

(** In exact arithmetic (for the rounded shader see
    [Component32Spec.unloaded_texture_fit]): while the load callback has not
    run, the texture-size uniform is the default (1,1); with that size and a
    viewport of positive width [w] and height [h], [getCoverUV] maps [(x,y)]
    to [((x*w + (m-w)/2)/m, (y*h + (m-h)/2)/m)] with [m = max(w,h)], which
    is the identity on every UV exactly when the viewport is square. *)
Lemma unloaded_texture_cover :
  (∀ hs s0 evs,
      mount hs = Some s0 →
      (∀ tw th, EvTextureLoad tw th ∉ evs) →
      ∃ u, shaderUniforms (clo (run evs s0)) = Some u
           ∧ Shader.uTextureSize u = Vec2 1 1)
  ∧ (∀ u : Shader.Uniforms,
        Shader.uTextureSize u = Vec2 1 1 →
        0 < vx (Shader.uResolution u) →
        0 < vy (Shader.uResolution u) →
        let w := vx (Shader.uResolution u) in
        let h := vy (Shader.uResolution u) in
        let m := max w h in
        (∀ uv, veq (Shader.getCoverUV u uv (Shader.uTextureSize u))
                   (Vec2 ((vx uv * w + (m - w) / 2) / m)
                         ((vy uv * h + (m - h) / 2) / m)))
        ∧ ((∀ uv, veq (Shader.getCoverUV u uv (Shader.uTextureSize u)) uv)
           ↔ w == h)).
Proof.
  split.
  - intros hs s0 evs Hm Hno.
    assert (W : wired (run evs s0)) by (apply run_wired, (mount_wired hs), Hm).
    destruct (wired_shaderUniforms _ W) as (ts & m & Hts & Hu).
    eexists. split; [exact Hu |]. simpl.
    rewrite run_texture_default in Hts.
    + congruence.
    + apply (mount_wired hs), Hm.
    + exact Hno.
    + apply (mount_texture_default hs), Hm.
  - intros u Ht Hw Hh w h m. rewrite Ht. split.
    + intros uv. apply ShaderSpec.getCoverUV_unit_texture; assumption.
    + apply ShaderSpec.getCoverUV_unit_texture_identity; assumption.
Qed.

(** C5, as the spec has it, fails: in a 1600x900 viewport the texture size
    (1,1) sends the UV (0,0) to (0, 7/32). *)
Lemma unit_texture_cover_not_identity :
  Shader.uTextureSize (Shader.defaults 1600 900) = Vec2 1 1
  ∧ ¬ veq (Shader.getCoverUV (Shader.defaults 1600 900) (Vec2 0 0)
             (Shader.uTextureSize (Shader.defaults 1600 900)))
          (Vec2 0 0).
Proof.
  split; [reflexivity |]. intros [_ Hy]. vm_compute in Hy. discriminate Hy.
Qed.

(** *** The theorems on a 1600x900 page *)

Lemma fresh_page (w h : Q) : fresh_host (page w h).
Proof.
  split.
  - intros ty hd Hin. inversion Hin.
  - intros id cb Hq. change ((∅ : gmap nat Callback) !! id = Some cb) in Hq.
    rewrite lookup_empty in Hq. discriminate Hq.
Defined.

Lemma mount_page (w h : Q) : ∃ s0, mount (page w h) = Some s0.
Proof. eexists. reflexivity. Defined.

Lemma cleanup_order_witness :
  fresh_host (page 1600 900)
  ∧ ∃ s0, mount (page 1600 900) = Some s0
          ∧ ∃ s',
              cleanup (run [EvMouseMove 3 4; EvFrame 0; EvResize 800 600] s0)
              = Some s'
              ∧ (∀ ty h, (ty, h) ∈ listeners (host s') → ¬ own h)
              ∧ (∀ id', rafQueue (host s') !! id' ≠ Some Animate)
              ∧ live (clo s') = [].
Proof.
  split; [apply fresh_page |].
  destruct (mount_page 1600 900) as [s0 E]. exists s0. split; [exact E |].
  destruct (cleanup_order (page 1600 900) s0
              [EvMouseMove 3 4; EvFrame 0; EvResize 800 600]
              (fresh_page 1600 900) E)
    as (id & s' & _ & _ & Hc & _ & Hl & Hq & _ & Hr).
  exists s'. exact (conj Hc (conj Hl (conj Hq Hr))).
Defined.

Lemma onResize_restores_resolution_witness :
  ∃ s0, mount (page 1600 900) = Some s0
        ∧ let s' := fire (EvResize 800 600) (run [EvFrame 0] s0) in
          store (clo s') !! uResolution (uniforms (clo s'))
          = Some (Vec2 800 600)
          ∧ cameraAspect (clo s') = 800 / 600
          ∧ projectionAspect (clo s') = 800 / 600.
Proof.
  destruct (mount_page 1600 900) as [s0 E]. exists s0. split; [exact E |].
  destruct (onResize_restores_resolution (page 1600 900) s0 [EvFrame 0]
              800 600 E) as (F & R & A & P & _).
  intros s'. unfold s'. rewrite F. exact (conj R (conj A P)).
Defined.

Lemma onMouseMove_only_mouse_witness :
  ∃ s0, mount (page 1600 900) = Some s0
        ∧ let s := run [EvFrame 0] s0 in
          let s' := fire (EvMouseMove 3 4) s in
          host s' = host s
          ∧ store (clo s') !! uMouse (uniforms (clo s)) = Some (Vec2 3 4)
          ∧ ∀ l, l ≠ uMouse (uniforms (clo s)) →
                 store (clo s') !! l = store (clo s) !! l.
Proof.
  destruct (mount_page 1600 900) as [s0 E]. exists s0. split; [exact E |].
  destruct (onMouseMove_only_mouse (page 1600 900) s0 [EvFrame 0] 3 4 E)
    as (_ & H & _ & M & O & _).
  exact (conj H (conj M O)).
Defined.

Lemma unloaded_texture_cover_witness :
  (∃ s0, mount (page 1600 900) = Some s0
         ∧ (∀ tw th, EvTextureLoad tw th ∉ [EvFrame 0; EvMouseMove 3 4])
         ∧ ∃ u, shaderUniforms
                  (clo (run [EvFrame 0; EvMouseMove 3 4] s0)) = Some u
                ∧ Shader.uTextureSize u = Vec2 1 1)
  ∧ (0 < 900 ∧ 900 == 900
     ∧ ∀ uv, veq (Shader.getCoverUV (Shader.defaults 900 900) uv (Vec2 1 1)) uv).
Proof.
  split.
  - destruct (mount_page 1600 900) as [s0 E]. exists s0. split; [exact E |].
    assert (N : ∀ tw th, EvTextureLoad tw th ∉ [EvFrame 0; EvMouseMove 3 4]).
    { intros tw th Hin.
      apply elem_of_cons in Hin as [Hin | Hin]; [discriminate Hin |].
      apply elem_of_cons in Hin as [Hin | Hin]; [discriminate Hin |].
      inversion Hin. }
    split; [exact N |].
    exact (proj1 unloaded_texture_cover (page 1600 900) s0 _ E N).
  - assert (P : 0 < 900) by ShaderSpec.qdec.
    assert (Q : 900 == 900) by reflexivity.
    split; [exact P |]. split; [exact Q |].
    exact (proj2 (proj2 (proj2 unloaded_texture_cover (Shader.defaults 900 900)
                    eq_refl P P)) Q).
Defined.

End ComponentSpec.

(** ** More on the fragment shader *)

Module ShaderExtra.
Import GLSL Shader GLSLFacts ShaderSpec.
Local Open Scope Q_scope.

Section Cover.
Variable u : Uniforms.
Variable ts : vec2.
Hypothesis Hw : 0 < vx (uResolution u).
Hypothesis Hh : 0 < vy (uResolution u).
Hypothesis Htx : 1 <= vx ts.
Hypothesis Hty : 1 <= vy ts.




End Cover.

Lemma ease_range (t : Q) :
  0 <= t -> t <= 1 -> 0 <= t * t * (3 - 2 * t) /\ t * t * (3 - 2 * t) <= 1.
Proof.
  intros H0 H1. split; [| apply ease_le_1; assumption].
  apply Qmult_le_0_compat; [apply Qmult_le_0_compat; assumption | lra].
Qed.

Lemma smoothstep_range (e0 e1 x : Q) :
  0 <= smoothstep e0 e1 x /\ smoothstep e0 e1 x <= 1.
Proof.
  unfold smoothstep. cbv zeta.
  destruct (clamp_range ((x - e0) / (e1 - e0)) 0 1) as [H0 H1]; [lra |].
  apply ease_range; assumption.
Qed.

Lemma edge_weight_bounds (x p : Q) :
  0 <= smoothEdge x p /\ smoothEdge x p <= 1.
Proof.
  unfold smoothEdge. cbv zeta.
  destruct (Qltb x p); [apply smoothstep_range |].
  destruct (Qltb (1 - p) x); [apply smoothstep_range | split; lra].
Qed.

(** X5. The edge fade is a weight: between 0 and 1 for every coordinate and
    every padding. *)
Theorem smoothEdge_range (x p : Q) :
  0 <= smoothEdge x p /\ smoothEdge x p <= 1.
Proof. exact (edge_weight_bounds x p). Qed.





Section Main.
Variable u : Uniforms.

Lemma neg_sign_abs (n : Q) :
  - sign ((1 # 2) - n) * abs (n - (1 # 2)) == n - (1 # 2).
Proof. unfold sign, abs. glsl_cases; lra. Qed.

(** X8. The parallax offset is horizontal and linear in the pointer's
    distance from the middle of the viewport: the sign and the absolute
    value of the shader multiply back to the signed distance. *)
Theorem parallaxOffset_closed_form (vUv : vec2) :
  vx (parallaxOffset u vUv)
  == (vx (normalizedMouse u) - (1 # 2)) * uParallaxStrength u
     * (1 + abs (vx (distortedUV u vUv) - vx vUv) * uDistortionMultiplier u)
     * edgeFactor u vUv
  /\ vy (parallaxOffset u vUv) == 0.
Proof.
  unfold parallaxOffset, vscale. cbv zeta. cbn [vx vy]. split; [| ring].
  rewrite (neg_sign_abs (vx (normalizedMouse u))). reflexivity.
Qed.

Lemma parallaxUV_vertical (vUv : vec2) : vy (parallaxUV u vUv) == vy vUv.
Proof.
  unfold parallaxUV, vadd, parallaxOffset, distortedUV, vscale.
  cbv zeta. cbn [vx vy]. ring.
Qed.

(** X9. The effect never moves a pixel vertically: the vertical coordinate
    handed to the sampler is that of the plain cover fit of the input, for
    every pointer position, time and setting. *)
Theorem sampleUV_vertical (vUv : vec2) :
  vy (sampleUV u vUv) == vy (vclamp (getCoverUV u vUv (uTextureSize u)) 0 1).
Proof.
  unfold sampleUV, vclamp. cbv zeta. cbn [vy].
  apply clamp_comp; [| reflexivity | reflexivity].
  unfold getCoverUV.
  destruct (Qltb (vx (uTextureSize u)) 1 || Qltb (vy (uTextureSize u)) 1).
  - apply parallaxUV_vertical.
  - unfold vdiv, vsub, vmul. cbn [vy]. rewrite parallaxUV_vertical.
    reflexivity.
Qed.




End Main.

(** *** The theorems at the shipped settings *)





End ShaderExtra.

(** ** More on the mounted component *)

Module ComponentExtra.
Import GLSL Component Trace ComponentSpec.
Local Open Scope Q_scope.

(** Induction over a run of a mounted component. *)
Lemma run_invariant (P : State → Prop) :
  (∀ e s, wired s → P s → P (fire e s)) →
  ∀ evs s, wired s → P s → P (run evs s).
Proof.
  intros Hstep. induction evs as [| e evs IH]; intros s W H; [exact H |].
  apply IH; [apply fire_wired, W | apply Hstep; assumption].
Qed.

Lemma fire_resize s w h :
  wired s →
  fire (EvResize w h) s = onResize (mkState (set_inner w h (host s)) (clo s)).
Proof.
  intros W. simpl. case_decide as Hl; [reflexivity |].
  exfalso. apply Hl, (wired_resize _ W).
Qed.

Lemma fire_mousemove s cx cy :
  wired s →
  fire (EvMouseMove cx cy) s = mkState (host s) (onMouseMove cx cy (clo s)).
Proof.
  intros W. simpl. case_decide as Hl; [reflexivity |].
  exfalso. apply Hl, (wired_mousemove _ W).
Qed.

Lemma fire_frame_pending s id :
  rafQueue (host s) !! id = Some Animate →
  fire (EvFrame id) s
  = animate (mkState (set_raf (delete id (rafQueue (host s)))
                              (rafNext (host s)) (host s)) (clo s)).
Proof. intros H. unfold fire. rewrite H. reflexivity. Qed.

Lemma fire_frame_stale s id :
  rafQueue (host s) !! id ≠ Some Animate → fire (EvFrame id) s = s.
Proof.
  intros H. unfold fire.
  destruct (rafQueue (host s) !! id) as [[| n] |]; congruence.
Qed.

Lemma fire_frame_cases s id :
  fire (EvFrame id) s = s
  ∨ fire (EvFrame id) s
    = animate (mkState (set_raf (delete id (rafQueue (host s)))
                                (rafNext (host s)) (host s)) (clo s)).
Proof.
  destruct (decide (rafQueue (host s) !! id = Some Animate)) as [H | H].
  - right. apply fire_frame_pending, H.
  - left. apply fire_frame_stale, H.
Qed.

(** X14. The render loop never runs twice over: on a mounted component
    exactly one [Animate] callback is queued, under the handle in
    [animationId].  The frame with that handle adds 0.01 to the time
    uniform, queues the next frame under a new handle, draws once and
    leaves the vectors alone; a frame event with any other handle changes
    nothing. *)
Theorem frame_step hs s0 evs :
  fresh_host hs →
  mount hs = Some s0 →
  let s := run evs s0 in
  ∃ id,
    animationId (clo s) = Some id
    ∧ (∀ id', rafQueue (host s) !! id' = Some Animate ↔ id' = id)
    ∧ (let s' := fire (EvFrame id) s in
       uTime (uniforms (clo s')) = uTime (uniforms (clo s)) + (1 # 100)
       ∧ animationId (clo s') = Some (rafNext (host s))
       ∧ log (host s')
         = (log (host s)
            ++ [RequestAnimationFrame Animate (rafNext (host s)); Render])
       ∧ store (clo s') = store (clo s))
    ∧ (∀ id', id' ≠ id → fire (EvFrame id') s = s).
Proof.
  intros Hf Hm s.
  assert (Sc : scheduled s)
    by (apply run_scheduled, (mount_scheduled hs); assumption).
  destruct Sc as [(id & Hid & Hpend & Huniq) _ _ _ _ _].
  exists id. split; [exact Hid |]. split.
  { intros id'. split; [apply Huniq | intros ->; exact Hpend]. }
  split.
  - rewrite (fire_frame_pending s id Hpend). cbv zeta.
    split; [reflexivity |]. split; [reflexivity |].
    split; [| reflexivity].
    change (log (host (animate (mkState
              (set_raf (delete id (rafQueue (host s))) (rafNext (host s))
                       (host s)) (clo s)))))
      with ((log (host s)
             ++ [RequestAnimationFrame Animate (rafNext (host s))])
            ++ [Render]).
    rewrite <- app_assoc. reflexivity.
  - intros id' Hne. apply fire_frame_stale. intros H. apply Hne, Huniq, H.
Qed.

Lemma fire_texture_size e s ts :
  wired s →
  store (clo s) !! uTextureSize (uniforms (clo s)) = Some ts →
  store (clo (fire e s)) !! uTextureSize (uniforms (clo (fire e s)))
  = Some (loadedSize [e] ts).
Proof.
  intros W Ht. destruct e as [cx cy | w h | id | tw th].
  - rewrite fire_mousemove by exact W.
    change (store (onMouseMove cx cy (clo s)) !! uTextureSize (uniforms (clo s))
            = Some ts).
    rewrite onMouseMove_lookup_ne; [exact Ht | exact (wired_tex_mouse _ W)].
  - rewrite fire_resize by exact W.
    change (store (clo (onResize (mkState (set_inner w h (host s)) (clo s))))
            !! uTextureSize (uniforms (clo s)) = Some ts).
    rewrite onResize_store, vectorSet_lookup_ne;
      [exact Ht | exact (wired_res_tex _ W)].
  - destruct (fire_frame_cases s id) as [-> | ->]; exact Ht.
  - change (store (vectorSet (uTextureSize (uniforms (clo s))) tw th (clo s))
            !! uTextureSize (uniforms (clo s)) = Some (Vec2 tw th)).
    apply vectorSet_lookup. eexists. exact Ht.
Qed.

Lemma run_texture_size evs :
  ∀ s ts, wired s →
          store (clo s) !! uTextureSize (uniforms (clo s)) = Some ts →
          store (clo (run evs s)) !! uTextureSize (uniforms (clo (run evs s)))
          = Some (loadedSize evs ts).
Proof.
  induction evs as [| e evs IH]; intros s ts W Ht; [exact Ht |].
  change (run (e :: evs) s) with (run evs (fire e s)).
  change (loadedSize (e :: evs) ts) with (loadedSize evs (loadedSize [e] ts)).
  apply IH; [apply fire_wired, W | apply fire_texture_size; assumption].
Qed.

(** X16. The texture-size uniform is the size reported by the last load
    callback, whatever else has happened since, and (1,1) while there has
    been none. *)
Theorem texture_size_last_load hs s0 evs :
  mount hs = Some s0 →
  store (clo (run evs s0)) !! uTextureSize (uniforms (clo (run evs s0)))
  = Some (loadedSize evs (Vec2 1 1)).
Proof.
  intros Hm. apply run_texture_size.
  - apply (mount_wired hs), Hm.
  - apply (mount_texture_default hs), Hm.
Qed.

Lemma filter_all {A} (P : A → Prop) `{∀ x, Decision (P x)} (l : list A) :
  (∀ x, x ∈ l → P x) → filter P l = l.
Proof.
  induction l as [| a l IH]; intros Hall; [reflexivity |].
  rewrite filter_cons_True by (apply Hall; left).
  rewrite IH; [reflexivity |]. intros x Hx. apply Hall. right. exact Hx.
Qed.

Lemma listeners_addEventListener_fresh ty h hs :
  (ty, h) ∉ listeners hs →
  listeners (addEventListener ty h hs) = listeners hs ++ [(ty, h)].
Proof.
  intros Hn. unfold addEventListener. cbv zeta.
  change (listeners (logCall ?c (set_listeners ?ls ?h0))) with ls.
  rewrite decide_False by exact Hn. reflexivity.
Qed.

Lemma fresh_queue_None hs n :
  fresh_host hs → (rafNext hs ≤ n)%nat → rafQueue hs !! n = None.
Proof.
  intros [_ Fq] Hn. destruct (rafQueue hs !! n) as [cb |] eqn:E; [| reflexivity].
  destruct (Fq _ _ E) as [_ Hlt]. lia.
Qed.

Lemma mount_guest hs s : fresh_host hs → mount hs = Some s → guest hs s.
Proof.
  intros Hf Hm. pose proof Hf as [Fl Fq].
  apply mount_Some in Hm as [_ ->]. split.
  - change (listeners
              (addEventListener Resize OnResize
                 (addEventListener Mousemove OnMouseMove
                    (appendChild Canvas hs)))
            = listeners hs ++ [(Mousemove, OnMouseMove); (Resize, OnResize)]).
    assert (E1 : listeners (addEventListener Mousemove OnMouseMove
                              (appendChild Canvas hs))
                 = listeners hs ++ [(Mousemove, OnMouseMove)]).
    { apply (listeners_addEventListener_fresh _ _ (appendChild Canvas hs)).
      intros Hin. apply (Fl _ _ Hin). left. reflexivity. }
    rewrite listeners_addEventListener_fresh, E1.
    + rewrite <- app_assoc. reflexivity.
    + rewrite E1. intros Hin. apply elem_of_app in Hin as [Hin | Hin].
      * apply (Fl _ _ Hin). right. reflexivity.
      * apply list_elem_of_singleton in Hin. discriminate Hin.
  - reflexivity.
  - reflexivity.
  - exists (rafNext hs). split; [reflexivity |]. split; [reflexivity |].
    apply fresh_queue_None; [exact Hf | lia].
  - change (rafNext hs ≤ S (rafNext hs))%nat. lia.
Qed.

(** [guest] reads only these six fields. *)
Lemma guest_ext hs s s' :
  listeners (host s') = listeners (host s) →
  children (host s') = children (host s) →
  canvasRef (clo s') = canvasRef (clo s) →
  animationId (clo s') = animationId (clo s) →
  rafQueue (host s') = rafQueue (host s) →
  rafNext (host s') = rafNext (host s) →
  guest hs s → guest hs s'.
Proof.
  intros E1 E2 E3 E4 E5 E6 [H1 H2 H3 H4 H5].
  split; rewrite ?E1, ?E2, ?E3, ?E4, ?E5, ?E6; assumption.
Qed.

Lemma fire_guest hs e s :
  fresh_host hs → wired s → guest hs s → guest hs (fire e s).
Proof.
  intros Hf W G. destruct e as [cx cy | w h | id0 | tw th].
  - rewrite fire_mousemove by exact W. revert G.
    apply guest_ext; reflexivity.
  - rewrite fire_resize by exact W. revert G. apply guest_ext; reflexivity.
  - destruct (decide (rafQueue (host s) !! id0 = Some Animate)) as [Hp | Hp];
      [| rewrite fire_frame_stale by exact Hp; exact G].
    rewrite (fire_frame_pending _ _ Hp).
    destruct G as [Gl Gc Gr (id & Hid & Hq & Hnone) Gn].
    assert (id0 = id) as ->.
    { rewrite Hq in Hp. apply lookup_insert_Some in Hp as [[E _] | [_ Hp]].
      - symmetry. exact E.
      - destruct Hf as [_ Fq]. destruct (Fq _ _ Hp) as [N _]. congruence. }
    split; try assumption.
    + exists (rafNext (host s)). split; [reflexivity |]. split.
      * change (<[rafNext (host s) := Animate]> (delete id (rafQueue (host s)))
                = <[rafNext (host s) := Animate]> (rafQueue hs)).
        rewrite Hq, delete_insert_eq, delete_id by exact Hnone. reflexivity.
      * apply fresh_queue_None; assumption.
    + change (rafNext hs ≤ S (rafNext (host s)))%nat. lia.
  - revert G. apply guest_ext; reflexivity.
Qed.

Lemma run_guest hs evs :
  fresh_host hs → ∀ s, wired s → guest hs s → guest hs (run evs s).
Proof.
  intros Hf. apply run_invariant. intros e s W G. apply fire_guest; assumption.
Qed.

(** The state the cleanup of a guest returns, and what it leaves of the
    guest in the host. *)
Lemma cleanup_guest hs s :
  fresh_host hs → guest hs s →
  ∃ id s',
    animationId (clo s) = Some id
    ∧ cleanup s = Some s'
    ∧ s' = dispose Renderer (dispose Texture (dispose Material (dispose Geometry
             (mkState
                (logCall (RemoveChild Canvas)
                   (set_children
                      (filter (λ c, c ≠ Canvas) (children (host s)))
                      (cancelAnimationFrame id
                         (removeEventListener Resize OnResize
                            (removeEventListener Mousemove OnMouseMove
                               (host s))))))
                (clo s)))))
    ∧ listeners (host s') = listeners hs
    ∧ rafQueue (host s') = rafQueue hs
    ∧ children (host s') = filter (λ c, c ≠ Canvas) (children hs).
Proof.
  intros [Fl Fq] [Gl Gc Gr (id & Hid & Hq & Hnone) Gn].
  exists id. eexists. split; [exact Hid |].
  split.
  { apply (cleanup_scheduled s id); [exact Hid | exact Gr |].
    rewrite Gc. apply elem_of_app. right. apply list_elem_of_singleton.
    reflexivity. }
  split; [reflexivity |]. split; [| split].
  - change (filter (λ p, p ≠ (Resize, OnResize))
              (filter (λ p, p ≠ (Mousemove, OnMouseMove)) (listeners (host s)))
            = listeners hs).
    rewrite Gl, !filter_app.
    rewrite (filter_all (λ p, p ≠ (Mousemove, OnMouseMove)) (listeners hs)).
    2:{ intros [ty h] Hin [= -> ->]. apply (Fl _ _ Hin). left. reflexivity. }
    rewrite (filter_all (λ p, p ≠ (Resize, OnResize)) (listeners hs)).
    2:{ intros [ty h] Hin [= -> ->]. apply (Fl _ _ Hin). right. reflexivity. }
    apply app_nil_r.
  - change (delete id (rafQueue (host s)) = rafQueue hs).
    rewrite Hq, delete_insert_eq. apply delete_id, Hnone.
  - change (filter (λ c, c ≠ Canvas) (children (host s))
            = filter (λ c, c ≠ Canvas) (children hs)).
    rewrite Gc, filter_app.
    rewrite (filter_all (λ c, c ≠ Canvas)
               (filter (λ c, c ≠ Canvas) (children hs))).
    2:{ intros c Hin. apply list_elem_of_filter in Hin as [Hc _]. exact Hc. }
    apply app_nil_r.
Qed.

Lemma reach_guest hs s0 evs :
  fresh_host hs → mount hs = Some s0 →
  wired (run evs s0) ∧ guest hs (run evs s0).
Proof.
  intros Hf Hm. pose proof (mount_wired hs s0 Hm) as W0. split.
  - apply run_wired, W0.
  - apply run_guest; [exact Hf | exact W0 | apply mount_guest; assumption].
Qed.

(** X17. Mounting, running and unmounting leaves the host as it was found:
    after the cleanup the window's listeners and the queue of frame
    callbacks are exactly those from before the mount, in the same order,
    and the container holds its former children without the canvas. *)
Theorem unmount_restores_host hs s0 evs :
  fresh_host hs →
  mount hs = Some s0 →
  ∃ s', cleanup (run evs s0) = Some s'
        ∧ listeners (host s') = listeners hs
        ∧ rafQueue (host s') = rafQueue hs
        ∧ children (host s') = filter (λ c, c ≠ Canvas) (children hs).
Proof.
  intros Hf Hm. destruct (reach_guest hs s0 evs Hf Hm) as [_ G].
  destruct (cleanup_guest hs _ Hf G) as (id & s' & _ & Hc & _ & Hl & Hq & Hk).
  exists s'. auto.
Qed.

(** X18. An unmounted component is inert: after the cleanup a pointer move
    and a frame event change nothing at all, and a resize changes the
    window's size only, not the component. *)
Theorem unmounted_inert hs s0 evs s' :
  fresh_host hs →
  mount hs = Some s0 →
  cleanup (run evs s0) = Some s' →
  (∀ cx cy, fire (EvMouseMove cx cy) s' = s')
  ∧ (∀ id, fire (EvFrame id) s' = s')
  ∧ (∀ w h, fire (EvResize w h) s' = mkState (set_inner w h (host s')) (clo s')).
Proof.
  intros Hf Hm Hc. destruct (reach_guest hs s0 evs Hf Hm) as [_ G].
  destruct (cleanup_guest hs _ Hf G) as (id & s1 & _ & Hc1 & _ & Hl & Hq & _).
  rewrite Hc in Hc1. injection Hc1 as <-.
  destruct Hf as [Fl Fq]. split; [| split].
  - intros cx cy. simpl. rewrite decide_False; [reflexivity |].
    rewrite Hl. intros Hin. apply (Fl _ _ Hin). left. reflexivity.
  - intros id'. apply fire_frame_stale. rewrite Hq. intros Hp.
    destruct (Fq _ _ Hp) as [N _]. congruence.
  - intros w h. simpl. rewrite decide_False; [reflexivity |].
    rewrite Hl. intros Hin. apply (Fl _ _ Hin). right. reflexivity.
Qed.

(** X19. The cleanup does not call off the texture load: when the image
    arrives after the unmount, its size is still written to the texture-size
    uniform. *)
Theorem late_texture_load hs s0 evs s' (tw th : Q) :
  fresh_host hs →
  mount hs = Some s0 →
  cleanup (run evs s0) = Some s' →
  let s'' := fire (EvTextureLoad tw th) s' in
  store (clo s'') !! uTextureSize (uniforms (clo s'')) = Some (Vec2 tw th).
Proof.
  intros Hf Hm Hc. destruct (reach_guest hs s0 evs Hf Hm) as [W G].
  destruct (cleanup_guest hs _ Hf G) as (id & s1 & _ & Hc1 & E & _).
  rewrite Hc in Hc1. injection Hc1 as <-. rewrite E. cbv zeta.
  change (store (vectorSet (uTextureSize (uniforms (clo (run evs s0)))) tw th
                   (clo (run evs s0)))
          !! uTextureSize (uniforms (clo (run evs s0))) = Some (Vec2 tw th)).
  apply vectorSet_lookup, (wired_texture _ W).
Qed.

(** X20. Calling the cleanup a second time fails: [canvasRef.current] is
    never cleared, so the second [removeChild] is asked to remove a canvas
    that is no longer a child, and throws. *)
Theorem cleanup_twice_throws hs s0 evs s' :
  fresh_host hs →
  mount hs = Some s0 →
  cleanup (run evs s0) = Some s' →
  cleanup s' = None.
Proof.
  intros Hf Hm Hc. destruct (reach_guest hs s0 evs Hf Hm) as [_ G].
  destruct (cleanup_guest hs _ Hf G) as (id & s1 & Hid & Hc1 & E & _ & _ & Hk).
  rewrite Hc in Hc1. injection Hc1 as <-.
  assert (Hn : Canvas ∉ children (host s')).
  { rewrite Hk. intros Hin. apply list_elem_of_filter in Hin as [N _].
    contradiction. }
  assert (Hr : canvasRef (clo s') = Some Canvas).
  { rewrite E. exact (guest_canvasRef _ _ G). }
  unfold cleanup. rewrite Hr. unfold removeChild.
  rewrite decide_False; [reflexivity |].
  destruct (animationId (clo s')); exact Hn.
Qed.




Lemma Math_min_le (a b : Q) : Math_min a b <= a ∧ Math_min a b <= b.
Proof.
  unfold Math_min. destruct (GLSLFacts.Qle_bool_spec a b); split; lra.
Qed.

(** X22. The renderer's pixel ratio is set once, at mount, to the device
    pixel ratio capped at 2, and no event changes it. *)
Theorem pixelRatio_capped hs s0 evs :
  mount hs = Some s0 →
  pixelRatio (clo (run evs s0)) = Math_min (devicePixelRatio hs) 2
  ∧ pixelRatio (clo (run evs s0)) <= 2
  ∧ pixelRatio (clo (run evs s0)) <= devicePixelRatio hs.
Proof.
  intros Hm.
  assert (E : pixelRatio (clo (run evs s0)) = Math_min (devicePixelRatio hs) 2).
  { apply (run_invariant
             (λ s, pixelRatio (clo s) = Math_min (devicePixelRatio hs) 2)).
    - intros e s W H. destruct e as [cx cy | w h | id | tw th].
      + rewrite fire_mousemove by exact W. exact H.
      + rewrite fire_resize by exact W. exact H.
      + destruct (fire_frame_cases s id) as [-> | ->]; exact H.
      + exact H.
    - apply (mount_wired hs), Hm.
    - apply mount_Some in Hm as [_ ->]. reflexivity. }
  rewrite E. destruct (Math_min_le (devicePixelRatio hs) 2) as [H1 H2].
  auto.
Qed.

(** *** The theorems on a 1600x900 page *)

Lemma unmount_page :
  ∃ s0 s', mount (page 1600 900) = Some s0
           ∧ cleanup (run [EvFrame 0; EvMouseMove 3 4] s0) = Some s'.
Proof.
  destruct (mount_page 1600 900) as [s0 E]. exists s0.
  destruct (reach_guest (page 1600 900) s0 [EvFrame 0; EvMouseMove 3 4]
              (fresh_page 1600 900) E) as [_ G].
  destruct (cleanup_guest _ _ (fresh_page 1600 900) G)
    as (id & s' & _ & Hc & _).
  exists s'. exact (conj E Hc).
Defined.

Lemma frame_step_witness :
  fresh_host (page 1600 900)
  ∧ ∃ s0, mount (page 1600 900) = Some s0
          ∧ ∃ id, animationId (clo (run [EvMouseMove 3 4] s0)) = Some id
                  ∧ ∀ id', id' ≠ id →
                           fire (EvFrame id') (run [EvMouseMove 3 4] s0)
                           = run [EvMouseMove 3 4] s0.
Proof.
  split; [apply fresh_page |].
  destruct (mount_page 1600 900) as [s0 E]. exists s0. split; [exact E |].
  destruct (frame_step (page 1600 900) s0 [EvMouseMove 3 4]
              (fresh_page 1600 900) E) as (id & Hid & _ & _ & Hs).
  exists id. exact (conj Hid Hs).
Defined.

Lemma texture_size_last_load_witness :
  ∃ s0, mount (page 1600 900) = Some s0
        ∧ store (clo (run [EvTextureLoad 640 480; EvFrame 0;
                           EvTextureLoad 800 600; EvMouseMove 3 4] s0))
          !! uTextureSize
               (uniforms (clo (run [EvTextureLoad 640 480; EvFrame 0;
                                    EvTextureLoad 800 600; EvMouseMove 3 4]
                                   s0)))
          = Some (Vec2 800 600).
Proof.
  destruct (mount_page 1600 900) as [s0 E]. exists s0. split; [exact E |].
  exact (texture_size_last_load (page 1600 900) s0
           [EvTextureLoad 640 480; EvFrame 0; EvTextureLoad 800 600;
            EvMouseMove 3 4] E).
Defined.

Lemma unmount_restores_host_witness :
  fresh_host (page 1600 900)
  ∧ ∃ s0, mount (page 1600 900) = Some s0
          ∧ ∃ s', cleanup (run [EvFrame 0; EvMouseMove 3 4] s0) = Some s'
                  ∧ listeners (host s') = listeners (page 1600 900)
                  ∧ rafQueue (host s') = rafQueue (page 1600 900).
Proof.
  split; [apply fresh_page |].
  destruct (mount_page 1600 900) as [s0 E]. exists s0. split; [exact E |].
  destruct (unmount_restores_host (page 1600 900) s0
              [EvFrame 0; EvMouseMove 3 4] (fresh_page 1600 900) E)
    as (s' & Hc & Hl & Hq & _).
  exists s'. exact (conj Hc (conj Hl Hq)).
Defined.

Lemma unmounted_inert_witness :
  ∃ s0 s', mount (page 1600 900) = Some s0
           ∧ cleanup (run [EvFrame 0; EvMouseMove 3 4] s0) = Some s'
           ∧ fire (EvMouseMove 5 6) s' = s'
           ∧ fire (EvFrame 1) s' = s'.
Proof.
  destruct unmount_page as (s0 & s' & E & Hc). exists s0, s'.
  destruct (unmounted_inert (page 1600 900) s0 _ s'
              (fresh_page 1600 900) E Hc) as (M & F & _).
  exact (conj E (conj Hc (conj (M 5 6) (F 1%nat)))).
Defined.

Lemma late_texture_load_witness :
  ∃ s0 s', mount (page 1600 900) = Some s0
           ∧ cleanup (run [EvFrame 0; EvMouseMove 3 4] s0) = Some s'
           ∧ store (clo (fire (EvTextureLoad 800 600) s'))
             !! uTextureSize (uniforms (clo (fire (EvTextureLoad 800 600) s')))
             = Some (Vec2 800 600).
Proof.
  destruct unmount_page as (s0 & s' & E & Hc). exists s0, s'.
  exact (conj E (conj Hc
           (late_texture_load (page 1600 900) s0 _ s' 800 600
              (fresh_page 1600 900) E Hc))).
Defined.

Lemma cleanup_twice_throws_witness :
  ∃ s0 s', mount (page 1600 900) = Some s0
           ∧ cleanup (run [EvFrame 0; EvMouseMove 3 4] s0) = Some s'
           ∧ cleanup s' = None.
Proof.
  destruct unmount_page as (s0 & s' & E & Hc). exists s0, s'.
  exact (conj E (conj Hc
           (cleanup_twice_throws (page 1600 900) s0 _ s'
              (fresh_page 1600 900) E Hc))).
Defined.


Lemma pixelRatio_capped_witness :
  ∃ s0, mount (page 1600 900) = Some s0
        ∧ pixelRatio (clo (run [EvFrame 0; EvResize 800 600] s0)) <= 2.
Proof.
  destruct (mount_page 1600 900) as [s0 E]. exists s0. split; [exact E |].
  exact (proj1 (proj2 (pixelRatio_capped (page 1600 900) s0
                         [EvFrame 0; EvResize 800 600] E))).
Defined.

End ComponentExtra.

(** ** The fragment shader as the GPU computes it *)

Module Shader32Spec.
Import F32 Shader32.

(** *** Comparison of floats *)






(** *** Cover fit *)




(** *** Edge fade *)




(** *** Ripple *)



End Shader32Spec.

(** ** The unloaded texture as the GPU fits it *)

Module Component32Spec.
Import Component ComponentSpec.

(** C5, as the code has it.  While the load callback has not run, the
    texture-size uniform is the default (1,1), and (1.0, 1.0) once uploaded.
    With that size the guard of [getCoverUV] does not fire: for every UV and
    every resolution the result is the cover fit of a one-pixel square,
    [(uv * resolution - offset) / scaledSize] with the scale
    [max(w/1, h/1)].  That is not the identity: in a 1600x900 viewport the
    UV (0,0) goes to (0, 7/32), and even in a square 900x900 viewport the
    float nearest to 0.996 comes back one unit in the last place lower. *)
Theorem unloaded_texture_fit :
  (∀ hs s0 evs,
      mount hs = Some s0 →
      (∀ tw th, EvTextureLoad tw th ∉ evs) →
      ∃ u, shaderUniforms (clo (run evs s0)) = Some u
           ∧ Shader.uTextureSize u = GLSL.Vec2 1 1
           ∧ Shader32.uTextureSize (Shader32.upload u)
             = F32.Vec2 F32.one F32.one)
  ∧ (∀ (u : Shader32.Uniforms) (uv : F32.vec2),
        let ts := F32.Vec2 F32.one F32.one in
        Shader32.getCoverUV u uv ts
        = F32.vdiv (F32.vsub (F32.vmul uv (Shader32.uResolution u))
                             (Shader32.coverOffset u ts))
                   (Shader32.coverScaledSize u ts)
        ∧ Shader32.coverScale u ts
          = F32.max (F32.div (F32.fx (Shader32.uResolution u)) F32.one)
                    (F32.div (F32.fy (Shader32.uResolution u)) F32.one))
  ∧ Shader32.getCoverUV (Shader32.upload (Shader.defaults 1600 900))
      (F32.Vec2 F32.zero F32.zero) (F32.Vec2 F32.one F32.one)
    = F32.Vec2 F32.zero (F32.ratio 7 32)
  ∧ (F32.ratio 996 1000 = F32.dyadic 16710107 (-24)
     ∧ Shader32.getCoverUV (Shader32.upload (Shader.defaults 900 900))
         (F32.Vec2 F32.half (F32.ratio 996 1000)) (F32.Vec2 F32.one F32.one)
       = F32.Vec2 F32.half (F32.dyadic 16710106 (-24))).
Proof.
  split; [| split; [| split; [| split]]].
  - intros hs s0 evs Hm Hno.
    assert (W : wired (run evs s0)) by (apply run_wired, (mount_wired hs), Hm).
    destruct (wired_shaderUniforms _ W) as (ts & m & Hts & Hu).
    rewrite run_texture_default in Hts;
      [| apply (mount_wired hs), Hm | exact Hno
       | apply (mount_texture_default hs), Hm].
    injection Hts as <-.
    eexists. split; [exact Hu |]. split; reflexivity.
  - intros u uv ts. split; reflexivity.
  - vm_compute. reflexivity.
  - vm_compute. reflexivity.
  - vm_compute. reflexivity.
Qed.

Lemma unloaded_texture_fit_witness :
  ∃ s0, mount (page 1600 900) = Some s0
        ∧ (∀ tw th, EvTextureLoad tw th ∉ [EvFrame 0; EvMouseMove 3 4])
        ∧ ∃ u, shaderUniforms
                 (clo (run [EvFrame 0; EvMouseMove 3 4] s0)) = Some u
               ∧ Shader32.uTextureSize (Shader32.upload u)
                 = F32.Vec2 F32.one F32.one.
Proof.
  destruct (mount_page 1600 900) as [s0 E]. exists s0. split; [exact E |].
  assert (N : ∀ tw th, EvTextureLoad tw th ∉ [EvFrame 0; EvMouseMove 3 4]).
  { intros tw th Hin.
    apply elem_of_cons in Hin as [Hin | Hin]; [discriminate Hin |].
    apply elem_of_cons in Hin as [Hin | Hin]; [discriminate Hin |].
    inversion Hin. }
  split; [exact N |].
  destruct (proj1 unloaded_texture_fit (page 1600 900) s0 _ E N)
    as (u & Hu & _ & Ht).
  exists u. exact (conj Hu Ht).
Defined.

End Component32Spec.
